(** * The calculator's expression classes (expr.py)

    A shallow embedding of the expression hierarchy of [expr.py]: integer
    constants, binary and unary operations, variables and assignment,
    evaluated against the single global dictionary [ENV].

    Python integers are unbounded, so they are [Z].  The global [ENV] is
    threaded explicitly through evaluation; a raised exception leaves the
    dictionary as it was at the point of the [raise], exactly as a Python
    exception leaves a mutated global behind.

    Two things of the interpreter are left out: the recursion limit (trees
    are evaluated whatever their depth) and the [-O] switch that strips
    [assert] statements (assertions are executed). *)

From Stdlib Require Import ZArith QArith Qround Lia Ascii.
From stdpp Require Import gmap strings pretty.

Close Scope Q_scope.
Open Scope Z_scope.
Open Scope string_scope.

(** ** Exceptions *)

(** [UndefinedVariable] is the one exception class the module declares;
    the others are the interpreter's own, raised by [//] on a zero divisor,
    by a failing [assert], by reading a missing attribute and by applying an
    arithmetic operator to an object. *)
Inductive Exception : Type :=
| UndefinedVariable (msg : string)
| ZeroDivisionError
| AssertionError
| AttributeError
| TypeError.

Inductive Outcome (A : Type) : Type :=
| Return (a : A)
| Raise (x : Exception).
Arguments Return {A} a.
Arguments Raise {A} x.

(** ** The expression classes *)

(** The concrete subclasses of [BinOp] and of [UnOp].  The abstract classes
    [Expr], [BinOp] and [UnOp] only raise [NotImplementedError] and are never
    instantiated themselves. *)
Inductive BinOpClass : Type := cPlus | cMinus | cTimes | cDiv.
Inductive UnOpClass : Type := cAbs | cNeg.

(** An object of one of the concrete classes, with the fields its
    [__init__] stores.  [Assign.left] is stored as it is given, so the type
    has room for any expression there; [Assign_init] below is the only way
    the program builds one. *)
Inductive Expr : Type :=
| IntConst (value : Z)
| BinOp (cls : BinOpClass) (left_ right_ : Expr)
| UnOp (cls : UnOpClass) (value : Expr)
| Var (name : string)
| Assign (left_ right_ : Expr).

Abbreviation Plus := (BinOp cPlus).
Abbreviation Minus := (BinOp cMinus).
Abbreviation Times := (BinOp cTimes).
Abbreviation Div := (BinOp cDiv).
Abbreviation Abs := (UnOp cAbs).
Abbreviation Neg := (UnOp cNeg).

(** The [symbol] each subclass passes to [super().__init__]. *)
Definition BinOp_symbol (cls : BinOpClass) : string :=
  match cls with
  | cPlus => "+"
  | cMinus => "-"
  | cTimes => "*"
  | cDiv => "/"
  end.

Definition UnOp_symbol (cls : UnOpClass) : string :=
  match cls with
  | cAbs => "@"
  | cNeg => "~"
  end.

(** [self.__class__.__name__] *)
Definition BinOp_class_name (cls : BinOpClass) : string :=
  match cls with
  | cPlus => "Plus"
  | cMinus => "Minus"
  | cTimes => "Times"
  | cDiv => "Div"
  end.

Definition UnOp_class_name (cls : UnOpClass) : string :=
  match cls with
  | cAbs => "Abs"
  | cNeg => "Neg"
  end.

Definition class_name (self : Expr) : string :=
  match self with
  | IntConst _ => "IntConst"
  | BinOp cls _ _ => BinOp_class_name cls
  | UnOp cls _ => UnOp_class_name cls
  | Var _ => "Var"
  | Assign _ _ => "Assign"
  end.

(** [isinstance(e, Var)] *)
Definition isinstance_Var (e : Expr) : bool :=
  match e with
  | Var _ => true
  | _ => false
  end.

(** [isinstance(e, IntConst)] *)
Definition isinstance_IntConst (e : Expr) : bool :=
  match e with
  | IntConst _ => true
  | _ => false
  end.

(** [IntConst.__eq__] *)
Definition IntConst_eq (self other : Expr) : bool :=
  match self, other with
  | IntConst v, IntConst w => bool_decide (v = w)
  | _, _ => false
  end.

(** ** Construction *)

(** [Assign.__init__]: the [assert isinstance(left, Var)] runs before any
    field is stored. *)
Definition Assign_init (left_ right_ : Expr) : Exception + Expr :=
  if isinstance_Var left_ then inr (Assign left_ right_)
  else inl AssertionError.

(** The trees a client can obtain by calling the constructors.  The other
    [__init__] methods store their arguments unconditionally. *)
Inductive constructed : Expr -> Prop :=
| constructed_IntConst value :
    constructed (IntConst value)
| constructed_BinOp cls left_ right_ :
    constructed left_ -> constructed right_ ->
    constructed (BinOp cls left_ right_)
| constructed_UnOp cls value :
    constructed value -> constructed (UnOp cls value)
| constructed_Var name :
    constructed (Var name)
| constructed_Assign left_ right_ e :
    constructed left_ -> constructed right_ ->
    Assign_init left_ right_ = inr e ->
    constructed e.

(** Every [Assign] node of the tree has a [Var] on its left. *)
Fixpoint targets_are_vars (e : Expr) : bool :=
  match e with
  | IntConst _ => true
  | BinOp _ left_ right_ => targets_are_vars left_ && targets_are_vars right_
  | UnOp _ value => targets_are_vars value
  | Var _ => true
  | Assign left_ right_ =>
      isinstance_Var left_ && targets_are_vars left_ && targets_are_vars right_
  end.

(** ** The state and exception monad of evaluation *)

(** A computation reads and writes the global [ENV] and either returns or
    raises. *)
Definition M (A : Type) : Type :=
  gmap string Expr -> Outcome A * gmap string Expr.

Definition ret {A} (a : A) : M A := fun ENV => (Return a, ENV).

Definition raise {A} (x : Exception) : M A := fun ENV => (Raise x, ENV).

Definition bind {A B} (m : M A) (k : A -> M B) : M B :=
  fun ENV =>
    match m ENV with
    | (Return a, ENV') => k a ENV'
    | (Raise x, ENV') => (Raise x, ENV')
    end.

Definition lift {A} (r : Exception + A) : M A :=
  match r with
  | inl x => raise x
  | inr a => ret a
  end.

Notation "x <~ m ;; k" := (bind m (fun x => k))
  (at level 100, m at next level, right associativity).

(** ** Arithmetic *)

(** What reading [.value] off an object yields: the integer of an
    [IntConst], or the child expression of a [UnOp]. *)
Inductive Attr : Type :=
| AInt (z : Z)
| AObj (e : Expr).

Definition getattr_value (self : Expr) : Exception + Attr :=
  match self with
  | IntConst value => inr (AInt value)
  | UnOp _ value => inr (AObj value)
  | _ => inl AttributeError
  end.

(** The arithmetic operators are defined on integers only; no expression
    class overloads them. *)
Definition as_int (a : Attr) : Exception + Z :=
  match a with
  | AInt z => inr z
  | AObj _ => inl TypeError
  end.

(** Python's [left // right] on integers: the quotient rounded towards
    minus infinity, [ZeroDivisionError] on a zero divisor. *)
Definition floordiv (left_ right_ : Z) : Exception + Z :=
  if decide (right_ = 0) then inl ZeroDivisionError
  else inr (left_ / right_).

(** The [_apply] method of each [BinOp] subclass. *)
Definition BinOp_apply (cls : BinOpClass) (left_ right_ : Z) : Exception + Z :=
  match cls with
  | cPlus => inr (left_ + right_)
  | cMinus => inr (left_ - right_)
  | cTimes => inr (left_ * right_)
  | cDiv => floordiv left_ right_
  end.

(** The [_apply] method of each [UnOp] subclass. *)
Definition UnOp_apply (cls : UnOpClass) (value : Z) : Z :=
  match cls with
  | cAbs => Z.abs value
  | cNeg => - value
  end.

(** Sequencing of steps that can raise but do not touch [ENV]. *)
Definition and_then {A B} (r : Exception + A) (k : A -> Exception + B)
  : Exception + B :=
  match r with
  | inl x => inl x
  | inr a => k a
  end.

(** [IntConst(self._apply(left_val.value, right_val.value))]: the two
    attributes are read left to right, then [_apply] is called. *)
Definition BinOp_result (cls : BinOpClass) (left_val right_val : Expr)
  : Exception + Expr :=
  and_then (getattr_value left_val) (fun l =>
  and_then (getattr_value right_val) (fun r =>
  and_then (as_int l) (fun a =>
  and_then (as_int r) (fun b =>
  and_then (BinOp_apply cls a b) (fun v =>
  inr (IntConst v)))))).

(** [IntConst(self._apply(left_val.value))] *)
Definition UnOp_result (cls : UnOpClass) (left_val : Expr)
  : Exception + Expr :=
  and_then (getattr_value left_val) (fun l =>
  and_then (as_int l) (fun a =>
  inr (IntConst (UnOp_apply cls a)))).

(** ** Evaluation *)

(** The message of [Var.eval]'s exception. *)
Definition undefined_msg (name : string) : string :=
  name +:+ " has not been assigned a value".

(** [Var.assign]: [ENV[self.name] = value].  Only [Var] has the method. *)
Definition assign (self : Expr) (value : Expr) : M unit :=
  match self with
  | Var name => fun ENV => (Return tt, <[name := value]> ENV)
  | _ => raise AttributeError
  end.

(** [eval], dispatched on the class of [self]. *)
Fixpoint eval (self : Expr) : M Expr :=
  match self with
  | IntConst _ => ret self
  | BinOp cls left_ right_ =>
      left_val <~ eval left_ ;;
      right_val <~ eval right_ ;;
      lift (BinOp_result cls left_val right_val)
  | UnOp cls value =>
      left_val <~ eval value ;;
      lift (UnOp_result cls left_val)
  | Var name =>
      fun ENV =>
        match ENV !! name with
        | Some v => (Return v, ENV)
        | None => (Raise (UndefinedVariable (undefined_msg name)), ENV)
        end
  | Assign left_ right_ =>
      r_val <~ eval right_ ;;
      _ <~ assign left_ r_val ;;
      ret r_val
  end.

(** ** Printing *)

(** [__str__]: algebraic notation.  [int.__str__] is the decimal numeral,
    with a leading minus sign for a negative number. *)
Fixpoint str (self : Expr) : string :=
  match self with
  | IntConst value => pretty value
  | BinOp cls left_ right_ =>
      "(" +:+ str left_ +:+ " " +:+ BinOp_symbol cls +:+ " " +:+ str right_ +:+ ")"
  | UnOp cls value =>
      "(" +:+ UnOp_symbol cls +:+ " " +:+ str value +:+ ")"
  | Var name => name
  | Assign left_ right_ =>
      "(" +:+ str left_ +:+ " = " +:+ str right_ +:+ ")"
  end.

(** [__repr__]: the constructor call. *)
Fixpoint repr (self : Expr) : string :=
  match self with
  | IntConst _ => "IntConst(" +:+ str self +:+ ")"
  | BinOp cls left_ right_ =>
      BinOp_class_name cls +:+ "(" +:+ repr left_ +:+ ", " +:+ repr right_ +:+ ")"
  | UnOp cls value =>
      UnOp_class_name cls +:+ "(" +:+ repr value +:+ ")"
  | Var name => "Var(" +:+ name +:+ ")"
  | Assign left_ right_ =>
      "Assign(" +:+ repr left_ +:+ ", " +:+ repr right_ +:+ ")"
  end.

(** The children of a node as they appear between the parentheses of its
    debug form: the numeral of a constant, the name of a variable, the debug
    forms of the operands otherwise. *)
Definition debug_args (self : Expr) : list string :=
  match self with
  | IntConst value => [pretty value]
  | BinOp _ left_ right_ => [repr left_; repr right_]
  | UnOp _ value => [repr value]
  | Var name => [name]
  | Assign left_ right_ => [repr left_; repr right_]
  end.

(** The concrete class of an object. *)
Inductive Class : Type :=
| IntConst_class
| BinOp_class (cls : BinOpClass)
| UnOp_class (cls : UnOpClass)
| Var_class
| Assign_class.

Definition class_of (self : Expr) : Class :=
  match self with
  | IntConst _ => IntConst_class
  | BinOp cls _ _ => BinOp_class cls
  | UnOp cls _ => UnOp_class cls
  | Var _ => Var_class
  | Assign _ _ => Assign_class
  end.

(** ** Clients *)

(** A caller that evaluates the expressions of [es] one after the other
    against the global [ENV], whatever each evaluation's outcome: the
    dictionary the sequence leaves behind. *)
Definition run (es : list Expr) (ENV : gmap string Expr) : gmap string Expr :=
  fold_left (fun E e => snd (eval e E)) es ENV.

(** The tree has a node [Assign(Var(n), _)] whose evaluation is reached. *)
Fixpoint assigns_to (n : string) (e : Expr) : bool :=
  match e with
  | IntConst _ => false
  | BinOp _ left_ right_ => assigns_to n left_ || assigns_to n right_
  | UnOp _ value => assigns_to n value
  | Var _ => false
  | Assign left_ right_ =>
      match left_ with
      | Var m => bool_decide (m = n)
      | _ => false
      end || assigns_to n right_
  end.

(** The tree has an [Assign] node. *)
Fixpoint has_Assign (e : Expr) : bool :=
  match e with
  | IntConst _ => false
  | BinOp _ left_ right_ => has_Assign left_ || has_Assign right_
  | UnOp _ value => has_Assign value
  | Var _ => false
  | Assign _ _ => true
  end.

(** [ENV] is declared [dict[str, IntConst]]: every stored object is an
    [IntConst]. *)
Definition ENV_holds_IntConst (ENV : gmap string Expr) : Prop :=
  forall name v, ENV !! name = Some v -> isinstance_IntConst v = true.

(** ** Footprints *)

(** The names of the [Var] nodes evaluation can reach.  The left child of
    an [Assign] is never evaluated, only assigned to. *)
Fixpoint reads (e : Expr) : gset string :=
  match e with
  | IntConst _ => ∅
  | BinOp _ left_ right_ => reads left_ ∪ reads right_
  | UnOp _ value => reads value
  | Var name => {[ name ]}
  | Assign _ right_ => reads right_
  end.

(** The names the [Assign] nodes of the tree store under. *)
Fixpoint writes (e : Expr) : gset string :=
  match e with
  | IntConst _ => ∅
  | BinOp _ left_ right_ => writes left_ ∪ writes right_
  | UnOp _ value => writes value
  | Var _ => ∅
  | Assign left_ right_ =>
      match left_ with
      | Var name => {[ name ]}
      | _ => ∅
      end ∪ writes right_
  end.

(** The tree has a [Div] node. *)
Fixpoint has_Div (e : Expr) : bool :=
  match e with
  | IntConst _ => false
  | BinOp cls left_ right_ =>
      match cls with
      | cDiv => true
      | _ => false
      end || has_Div left_ || has_Div right_
  | UnOp _ value => has_Div value
  | Var _ => false
  | Assign _ right_ => has_Div right_
  end.

(** The outcome of an evaluation is one of the two the module intends for
    its callers: an integer constant, or one of the two documented
    failures. *)
Definition intended (o : Outcome Expr) : Prop :=
  match o with
  | Return r => exists v, r = IntConst v
  | Raise x => x = ZeroDivisionError \/ exists msg, x = UndefinedVariable msg
  end.

(** ** Classes of characters and of names *)

(** Every character of [s] satisfies [P]. *)
Fixpoint string_forall (P : ascii -> bool) (s : string) : bool :=
  match s with
  | EmptyString => true
  | String c s' => P c && string_forall P s'
  end.

(** Every variable name in the tree satisfies [P], assignment targets
    included. *)
Fixpoint names_forall (P : string -> bool) (e : Expr) : bool :=
  match e with
  | IntConst _ => true
  | BinOp _ left_ right_ => names_forall P left_ && names_forall P right_
  | UnOp _ value => names_forall P value
  | Var name => P name
  | Assign left_ right_ => names_forall P left_ && names_forall P right_
  end.

(** The name has no closing parenthesis. *)
Definition no_rparen (s : string) : bool :=
  string_forall (fun c => negb (Ascii.eqb c ")")) s.

Definition is_digit (c : ascii) : bool :=
  (48 <=? nat_of_ascii c)%nat && (nat_of_ascii c <=? 57)%nat.

(** An ASCII letter or the underscore. *)
Definition is_letter (c : ascii) : bool :=
  (65 <=? nat_of_ascii c)%nat && (nat_of_ascii c <=? 90)%nat
  || (97 <=? nat_of_ascii c)%nat && (nat_of_ascii c <=? 122)%nat
  || (nat_of_ascii c =? 95)%nat.

(** The name is an ASCII identifier of the host language: a letter or
    underscore followed by letters, digits and underscores. *)
Definition identifier (s : string) : bool :=
  match s with
  | EmptyString => false
  | String c s' =>
      is_letter c && string_forall (fun d => is_letter d || is_digit d) s'
  end.

(** The characters of a decimal numeral. *)
Definition numeral_char (c : ascii) : bool := is_digit c || Ascii.eqb c "-".

(** The characters that end a numeral or a name inside algebraic
    notation. *)
Definition delimiter (c : ascii) : bool :=
  Ascii.eqb c " " || Ascii.eqb c ")".

Definition delimited (t : string) : bool :=
  match t with
  | EmptyString => true
  | String c _ => delimiter c
  end.

Definition atom_char (c : ascii) : bool := negb (delimiter c).

(** The characters algebraic notation can start with, or be followed
    by. *)
Definition head_char (c : ascii) : bool :=
  numeral_char c || is_letter c || Ascii.eqb c "(" || delimiter c.

(** ** The mathematical quotient *)

(** [floor(a/b)] over the rationals. *)
Definition floor_quotient (a b : Z) : Z :=
  Qfloor (inject_Z a / inject_Z b)%Q.

(** C-style division, truncating towards zero. *)
Definition trunc_quotient (a b : Z) : Z := Z.quot a b.

(** * Properties *)

(** ** Monad laws used below *)

Section MonadLaws.
Context {A B : Type}.
Variables (m : M A) (k : A -> M B) (ENV ENV' : gmap string Expr).

Lemma bind_Return a : m ENV = (Return a, ENV') -> bind m k ENV = k a ENV'.
Proof. intros H. unfold bind. now rewrite H. Qed.

Lemma bind_Raise x :
  m ENV = (Raise x, ENV') -> bind m k ENV = (Raise x, ENV').
Proof. intros H. unfold bind. now rewrite H. Qed.
End MonadLaws.

Lemma lift_ENV {A} (r : Exception + A) ENV : snd (lift r ENV) = ENV.
Proof. now destruct r. Qed.

(** ** Evaluation of an operation on two constants *)

Lemma eval_IntConst v ENV : eval (IntConst v) ENV = (Return (IntConst v), ENV).
Proof. reflexivity. Qed.

Lemma eval_BinOp_values cls left_ right_ ENV a ENV1 b ENV2 :
  eval left_ ENV = (Return (IntConst a), ENV1) ->
  eval right_ ENV1 = (Return (IntConst b), ENV2) ->
  eval (BinOp cls left_ right_) ENV =
    (match BinOp_apply cls a b with
     | inr v => Return (IntConst v)
     | inl x => Raise x
     end, ENV2).
Proof.
  intros Hl Hr. cbn [eval].
  rewrite (bind_Return _ _ _ _ _ Hl), (bind_Return _ _ _ _ _ Hr).
  cbn. destruct (BinOp_apply cls a b); reflexivity.
Qed.

Lemma eval_UnOp_value cls value ENV a ENV1 :
  eval value ENV = (Return (IntConst a), ENV1) ->
  eval (UnOp cls value) ENV = (Return (IntConst (UnOp_apply cls a)), ENV1).
Proof.
  intros Hv. cbn [eval]. now rewrite (bind_Return _ _ _ _ _ Hv).
Qed.

(** ** Results are integer constants *)

(** [r == IntConst(v)] holds exactly when [r] is that constant, so results
    are compared with [=] below. *)
Lemma IntConst_eq_true r v : IntConst_eq r (IntConst v) = true <-> r = IntConst v.
Proof.
  destruct r as [w | | | |]; cbn; try (split; discriminate).
  rewrite bool_decide_eq_true. split; congruence.
Qed.

Lemma isinstance_Var_true e : isinstance_Var e = true <-> exists name, e = Var name.
Proof.
  split.
  - destruct e; try discriminate. intros _. now eexists.
  - intros [name ->]. reflexivity.
Qed.

Lemma isinstance_IntConst_true e :
  isinstance_IntConst e = true <-> exists v, e = IntConst v.
Proof.
  split.
  - destruct e; try discriminate. intros _. now eexists.
  - intros [v ->]. reflexivity.
Qed.

Lemma BinOp_result_IntConst cls left_val right_val r :
  BinOp_result cls left_val right_val = inr r -> isinstance_IntConst r = true.
Proof.
  unfold BinOp_result, and_then.
  destruct (getattr_value left_val) as [|l]; [discriminate |].
  destruct (getattr_value right_val) as [|r']; [discriminate |].
  destruct (as_int l) as [|a]; [discriminate |].
  destruct (as_int r') as [|b]; [discriminate |].
  destruct (BinOp_apply cls a b); [discriminate |].
  now intros [= <-].
Qed.

Lemma UnOp_result_IntConst cls left_val r :
  UnOp_result cls left_val = inr r -> isinstance_IntConst r = true.
Proof.
  unfold UnOp_result, and_then.
  destruct (getattr_value left_val) as [|l]; [discriminate |].
  destruct (as_int l) as [|a]; [discriminate |].
  now intros [= <-].
Qed.

(** On integer constants the two results only fail by a zero divisor. *)
Lemma BinOp_result_raises cls a b x :
  BinOp_result cls (IntConst a) (IntConst b) = inl x -> x = ZeroDivisionError.
Proof.
  destruct cls; cbn; try discriminate.
  unfold floordiv. destruct (decide (b = 0)); cbn; [| discriminate].
  now intros [= <-].
Qed.

(** The invariant of the data model: as long as [ENV] holds integer
    constants, evaluation keeps it so and returns an integer constant
    whenever it returns. *)
Lemma eval_returns_IntConst e ENV o ENV' :
  ENV_holds_IntConst ENV ->
  eval e ENV = (o, ENV') ->
  ENV_holds_IntConst ENV'
  /\ forall r, o = Return r -> isinstance_IntConst r = true.
Proof.
  revert ENV o ENV'.
  induction e as [v | cls l IHl r IHr | cls v IHv | m | l _ r IHr];
    intros ENV o ENV' HE; cbn [eval].
  - intros [= <- <-]. split; [exact HE |]. now intros r [= <-].
  - unfold bind at 1.
    destruct (eval l ENV) as [[lv|x] ENV1] eqn:El;
      destruct (IHl _ _ _ HE El) as [HE1 _].
    2:{ intros [= <- <-]. split; [exact HE1 | discriminate]. }
    unfold bind.
    destruct (eval r ENV1) as [[rv|x] ENV2] eqn:Er;
      destruct (IHr _ _ _ HE1 Er) as [HE2 _].
    2:{ intros [= <- <-]. split; [exact HE2 | discriminate]. }
    destruct (BinOp_result cls lv rv) as [x|res] eqn:Eres; cbn;
      intros [= <- <-]; (split; [exact HE2 |]).
    + discriminate.
    + intros r0 [= <-]. exact (BinOp_result_IntConst _ _ _ _ Eres).
  - unfold bind.
    destruct (eval v ENV) as [[lv|x] ENV1] eqn:Ev;
      destruct (IHv _ _ _ HE Ev) as [HE1 _].
    2:{ intros [= <- <-]. split; [exact HE1 | discriminate]. }
    destruct (UnOp_result cls lv) as [x|res] eqn:Eres; cbn;
      intros [= <- <-]; (split; [exact HE1 |]).
    + discriminate.
    + intros r0 [= <-]. exact (UnOp_result_IntConst _ _ _ Eres).
  - destruct (ENV !! m) as [v|] eqn:Em; intros [= <- <-];
      (split; [exact HE |]).
    + intros r [= <-]. exact (HE m v Em).
    + discriminate.
  - unfold bind at 1.
    destruct (eval r ENV) as [[rv|x] ENV1] eqn:Er;
      destruct (IHr _ _ _ HE Er) as [HE1 Hrv].
    2:{ intros [= <- <-]. split; [exact HE1 | discriminate]. }
    specialize (Hrv rv eq_refl).
    destruct l as [| | | n |]; cbn;
      intros [= <- <-]; try (split; [exact HE1 | discriminate]).
    split.
    + intros name v. rewrite lookup_insert. case_decide.
      * now intros [= <-].
      * apply HE1.
    + now intros r0 [= <-].
Qed.

(** The failures of a tree built by the constructors, against a
    well-formed [ENV], are the two the module intends: an undefined variable
    and a zero divisor. *)
Lemma eval_raises_defined e ENV x ENV' :
  targets_are_vars e = true ->
  ENV_holds_IntConst ENV ->
  eval e ENV = (Raise x, ENV') ->
  x = ZeroDivisionError \/ exists msg, x = UndefinedVariable msg.
Proof.
  revert ENV x ENV'.
  induction e as [v | cls l IHl r IHr | cls v IHv | m | l _ r IHr];
    intros ENV x ENV' Hwf HE; cbn [eval targets_are_vars] in *.
  - discriminate.
  - apply andb_true_iff in Hwf as [Hl Hr].
    unfold bind at 1. destruct (eval l ENV) as [[lv|y] ENV1] eqn:El.
    2:{ intros [= <- <-]. exact (IHl _ _ _ Hl HE El). }
    destruct (eval_returns_IntConst _ _ _ _ HE El) as [HE1 Hlv].
    specialize (Hlv lv eq_refl).
    apply isinstance_IntConst_true in Hlv as [a ->].
    unfold bind. destruct (eval r ENV1) as [[rv|y] ENV2] eqn:Er.
    2:{ intros [= <- <-]. exact (IHr _ _ _ Hr HE1 Er). }
    destruct (eval_returns_IntConst _ _ _ _ HE1 Er) as [_ Hrv].
    specialize (Hrv rv eq_refl).
    apply isinstance_IntConst_true in Hrv as [b ->].
    destruct (BinOp_result cls (IntConst a) (IntConst b)) as [y|res] eqn:Eres;
      cbn; [| discriminate].
    intros [= <- <-]. left. exact (BinOp_result_raises _ _ _ _ Eres).
  - unfold bind. destruct (eval v ENV) as [[lv|y] ENV1] eqn:Ev.
    2:{ intros [= <- <-]. exact (IHv _ _ _ Hwf HE Ev). }
    destruct (eval_returns_IntConst _ _ _ _ HE Ev) as [_ Hlv].
    specialize (Hlv lv eq_refl).
    apply isinstance_IntConst_true in Hlv as [a ->].
    discriminate.
  - destruct (ENV !! m); [discriminate |]. intros [= <- <-]. right. now eexists.
  - apply andb_true_iff in Hwf as [Hwf Hr].
    apply andb_true_iff in Hwf as [Hvar _].
    apply isinstance_Var_true in Hvar as [n ->].
    unfold bind at 1. destruct (eval r ENV) as [[rv|y] ENV1] eqn:Er.
    + discriminate.
    + intros [= <- <-]. exact (IHr _ _ _ Hr HE Er).
Qed.

(** ** Floor division *)

Lemma floordiv_zero a : floordiv a 0 = inl ZeroDivisionError.
Proof. reflexivity. Qed.

Lemma floordiv_nonzero a b : b <> 0 -> floordiv a b = inr (a / b).
Proof. intros Hb. unfold floordiv. destruct (decide (b = 0)); [contradiction | reflexivity]. Qed.

Lemma floor_quotient_div a b : b <> 0 -> floor_quotient a b = a / b.
Proof.
  intros Hb. unfold floor_quotient, Qfloor, Qdiv, Qmult, Qinv, inject_Z.
  destruct b as [|p|p]; [contradiction | |]; cbn.
  - now rewrite Z.mul_1_r.
  - rewrite <- (Z.div_opp_opp a (Z.neg p)) by discriminate.
    f_equal. lia.
Qed.

(** ** Division *)

(** The divisor is whatever the right operand evaluates to: a zero there
    raises, after both operands have been evaluated. *)
Lemma Div_zero_divisor left_ right_ ENV a ENV1 ENV2 :
  eval left_ ENV = (Return (IntConst a), ENV1) ->
  eval right_ ENV1 = (Return (IntConst 0), ENV2) ->
  eval (Div left_ right_) ENV = (Raise ZeroDivisionError, ENV2).
Proof.
  intros Hl Hr. now rewrite (eval_BinOp_values _ _ _ _ _ _ _ _ Hl Hr).
Qed.

(** C1. For every integer [a], evaluating [Div(IntConst(a), IntConst(0))]
    raises the division-by-zero exception (Python's [ZeroDivisionError],
    raised by [//]), leaving [ENV] as it was; the exception is a kind of its
    own, different from [UndefinedVariable] and from every other failure of
    the module. *)
Theorem Div_by_zero_raises (a : Z) (ENV : gmap string Expr) :
  eval (Div (IntConst a) (IntConst 0)) ENV = (Raise ZeroDivisionError, ENV)
  /\ (forall msg, ZeroDivisionError <> UndefinedVariable msg)
  /\ ZeroDivisionError <> AssertionError
  /\ ZeroDivisionError <> AttributeError
  /\ ZeroDivisionError <> TypeError.
Proof.
  split; [| repeat split; try intros msg; discriminate].
  apply (Div_zero_divisor _ _ ENV a ENV ENV); apply eval_IntConst.
Qed.

(** C2. For all integers [a] and [b] with [b <> 0],
    [Div(IntConst(a), IntConst(b))] evaluates to [IntConst(q)] where [q] is
    the floor of the rational [a/b]: [q] is the quotient rounded towards
    minus infinity (the remainder [a - b*q] has the sign of [b] and is
    smaller than it in absolute value).  This is not truncation towards
    zero: [-7 // 2] is [-4], where truncation gives [-3]. *)
Theorem Div_is_floor_division (a b : Z) (ENV : gmap string Expr) :
  b <> 0 ->
  eval (Div (IntConst a) (IntConst b)) ENV
    = (Return (IntConst (floor_quotient a b)), ENV)
  /\ (0 < b -> b * floor_quotient a b <= a < b * (floor_quotient a b + 1))
  /\ (b < 0 -> b * (floor_quotient a b + 1) < a <= b * floor_quotient a b)
  /\ floor_quotient (-7) 2 = -4
  /\ trunc_quotient (-7) 2 = -3.
Proof.
  intros Hb. rewrite (floor_quotient_div a b Hb).
  split; [| split; [| split; [| split; reflexivity]]].
  - rewrite (eval_BinOp_values cDiv _ _ ENV a ENV b ENV);
      try apply eval_IntConst.
    cbn [BinOp_apply]. now rewrite floordiv_nonzero.
  - intros Hpos. pose proof (Z.div_mod a b Hb) as Hdm.
    pose proof (Z.mod_pos_bound a b Hpos). lia.
  - intros Hneg. pose proof (Z.div_mod a b Hb) as Hdm.
    pose proof (Z.mod_neg_bound a b Hneg). lia.
Qed.

Lemma Div_is_floor_division_witness :
  2 <> 0
  /\ eval (Div (IntConst (-7)) (IntConst 2)) ∅ = (Return (IntConst (-4)), ∅).
Proof.
  assert (H : 2 <> 0) by discriminate.
  split; [exact H |].
  exact (proj1 (Div_is_floor_division (-7) 2 ∅ H)).
Defined.

(** ** The arithmetic operations *)

(** C6. On constants, [Plus], [Minus] and [Times] evaluate to the constant
    holding the integer sum, difference and product, [Abs] to the absolute
    value and [Neg] to the negation; [ENV] is not touched. *)
Theorem arithmetic_on_constants (a b : Z) (ENV : gmap string Expr) :
  eval (Plus (IntConst a) (IntConst b)) ENV = (Return (IntConst (a + b)), ENV)
  /\ eval (Minus (IntConst a) (IntConst b)) ENV = (Return (IntConst (a - b)), ENV)
  /\ eval (Times (IntConst a) (IntConst b)) ENV = (Return (IntConst (a * b)), ENV)
  /\ eval (Abs (IntConst a)) ENV = (Return (IntConst (Z.abs a)), ENV)
  /\ eval (Neg (IntConst a)) ENV = (Return (IntConst (- a)), ENV).
Proof. repeat split. Qed.

(** ** Construction of assignments *)

Lemma Assign_init_inr left_ right_ e :
  Assign_init left_ right_ = inr e ->
  isinstance_Var left_ = true /\ e = Assign left_ right_.
Proof.
  unfold Assign_init. destruct (isinstance_Var left_); intros H.
  - split; [reflexivity | congruence].
  - discriminate.
Qed.

Lemma constructed_targets_are_vars e : constructed e -> targets_are_vars e = true.
Proof.
  induction 1 as [v | cls l r _ IHl _ IHr | cls v _ IHv | n
                  | l r e _ IHl _ IHr Hinit]; cbn.
  - reflexivity.
  - now rewrite IHl, IHr.
  - exact IHv.
  - reflexivity.
  - apply Assign_init_inr in Hinit as [Hvar ->]. cbn.
    now rewrite Hvar, IHl, IHr.
Qed.

(** C3. [Assign.__init__] called with a left operand that is not a [Var]
    raises (the [assert] fails, an [AssertionError]) and no object is
    returned, whatever the right operand; called with a [Var] it returns the
    node.  Hence no tree built through the constructors has an [Assign] whose
    left child is not a [Var]. *)
Theorem Assign_init_requires_Var (left_ right_ : Expr) :
  (forall name, left_ <> Var name) ->
  Assign_init left_ right_ = inl AssertionError
  /\ (forall e, Assign_init left_ right_ <> inr e)
  /\ (forall name, Assign_init (Var name) right_ = inr (Assign (Var name) right_))
  /\ (forall e, constructed e -> targets_are_vars e = true).
Proof.
  intros Hleft.
  assert (Hno : isinstance_Var left_ = false).
  { destruct (isinstance_Var left_) eqn:E; [| reflexivity].
    apply isinstance_Var_true in E as [name ->]. now destruct (Hleft name). }
  unfold Assign_init. rewrite Hno.
  split; [reflexivity |].
  split; [intros e; discriminate |].
  split; [reflexivity |].
  exact constructed_targets_are_vars.
Qed.

Lemma Assign_init_requires_Var_witness :
  (forall name, IntConst 1 <> Var name)
  /\ Assign_init (IntConst 1) (IntConst 2) = inl AssertionError.
Proof.
  assert (H : forall name, IntConst 1 <> Var name) by (intros name; discriminate).
  split; [exact H |].
  exact (proj1 (Assign_init_requires_Var (IntConst 1) (IntConst 2) H)).
Defined.

(** ** Variables and assignment *)

Lemma eval_Var_Some name ENV v :
  ENV !! name = Some v -> eval (Var name) ENV = (Return v, ENV).
Proof. intros H. cbn. now rewrite H. Qed.

Lemma eval_Var_None name ENV :
  ENV !! name = None ->
  eval (Var name) ENV = (Raise (UndefinedVariable (undefined_msg name)), ENV).
Proof. intros H. cbn. now rewrite H. Qed.

Lemma eval_Assign_Return name right_ ENV r_val ENV1 :
  eval right_ ENV = (Return r_val, ENV1) ->
  eval (Assign (Var name) right_) ENV = (Return r_val, <[name := r_val]> ENV1).
Proof. intros H. cbn [eval]. now rewrite (bind_Return _ _ _ _ _ H). Qed.

Lemma eval_Assign_Raise left_ right_ ENV x ENV1 :
  eval right_ ENV = (Raise x, ENV1) ->
  eval (Assign left_ right_) ENV = (Raise x, ENV1).
Proof. intros H. cbn [eval]. now rewrite (bind_Raise _ _ _ _ _ H). Qed.

(** An exception raised by an operand leaves through the operation. *)
Lemma eval_BinOp_Raise_left cls left_ right_ ENV x ENV1 :
  eval left_ ENV = (Raise x, ENV1) ->
  eval (BinOp cls left_ right_) ENV = (Raise x, ENV1).
Proof. intros H. cbn [eval]. now rewrite (bind_Raise _ _ _ _ _ H). Qed.

Lemma eval_BinOp_Raise_right cls left_ right_ ENV left_val ENV1 x ENV2 :
  eval left_ ENV = (Return left_val, ENV1) ->
  eval right_ ENV1 = (Raise x, ENV2) ->
  eval (BinOp cls left_ right_) ENV = (Raise x, ENV2).
Proof.
  intros Hl Hr. cbn [eval].
  now rewrite (bind_Return _ _ _ _ _ Hl), (bind_Raise _ _ _ _ _ Hr).
Qed.

Lemma eval_UnOp_Raise cls value ENV x ENV1 :
  eval value ENV = (Raise x, ENV1) ->
  eval (UnOp cls value) ENV = (Raise x, ENV1).
Proof. intros H. cbn [eval]. now rewrite (bind_Raise _ _ _ _ _ H). Qed.

(** Evaluation writes [ENV] only at the names some [Assign] node targets. *)
Lemma eval_preserves_lookup n e ENV :
  assigns_to n e = false -> snd (eval e ENV) !! n = ENV !! n.
Proof.
  revert ENV.
  induction e as [v | cls l IHl r IHr | cls v IHv | m | l _ r IHr];
    intros ENV Hn; cbn [assigns_to] in Hn; cbn [eval].
  - reflexivity.
  - apply orb_false_iff in Hn as [Hl Hr].
    unfold bind at 1. specialize (IHl ENV Hl).
    destruct (eval l ENV) as [[lv|x] ENV1]; cbn [snd] in *; [| exact IHl].
    unfold bind. specialize (IHr ENV1 Hr).
    destruct (eval r ENV1) as [[rv|x] ENV2]; cbn [snd] in *;
      [| congruence].
    rewrite lift_ENV. congruence.
  - unfold bind. specialize (IHv ENV Hn).
    destruct (eval v ENV) as [[lv|x] ENV1]; cbn [snd] in *; [| exact IHv].
    now rewrite lift_ENV.
  - destruct (ENV !! m); reflexivity.
  - apply orb_false_iff in Hn as [Hl Hr].
    unfold bind at 1. specialize (IHr ENV Hr).
    destruct (eval r ENV) as [[rv|x] ENV1]; cbn [snd] in *; [| exact IHr].
    rewrite <- IHr.
    destruct l; cbn; try reflexivity.
    apply bool_decide_eq_false in Hl. now rewrite lookup_insert_ne.
Qed.

Lemma run_preserves_lookup n es ENV :
  Forall (fun e => assigns_to n e = false) es -> run es ENV !! n = ENV !! n.
Proof.
  intros Hes. revert ENV. unfold run.
  induction Hes as [| e es He _ IH]; intros ENV; cbn [fold_left].
  - reflexivity.
  - rewrite IH. now apply eval_preserves_lookup.
Qed.

(** A tree without [Assign] nodes leaves [ENV] alone. *)
Lemma eval_no_Assign_ENV e ENV :
  has_Assign e = false -> snd (eval e ENV) = ENV.
Proof.
  revert ENV.
  induction e as [v | cls l IHl r IHr | cls v IHv | m | l _ r _];
    intros ENV Hn; cbn [has_Assign] in Hn; cbn [eval].
  - reflexivity.
  - apply orb_false_iff in Hn as [Hl Hr].
    unfold bind at 1. specialize (IHl ENV Hl).
    destruct (eval l ENV) as [[lv|x] ENV1]; cbn [snd] in *; [| exact IHl].
    unfold bind. specialize (IHr ENV1 Hr).
    destruct (eval r ENV1) as [[rv|x] ENV2]; cbn [snd] in *;
      [| congruence].
    rewrite lift_ENV. congruence.
  - unfold bind. specialize (IHv ENV Hn).
    destruct (eval v ENV) as [[lv|x] ENV1]; cbn [snd] in *; [| exact IHv].
    now rewrite lift_ENV.
  - destruct (ENV !! m); reflexivity.
  - discriminate.
Qed.

(** C4. If [e] evaluates to [IntConst(v)], then [Assign(Var(n), e)]
    returns [IntConst(v)] and leaves [ENV] with [n] bound to [IntConst(v)];
    from then on, whatever else is evaluated, as long as none of it assigns
    to [n], [Var(n)] evaluates to [IntConst(v)]. *)
Theorem Assign_stores_value (n : string) (e : Expr) (v : Z)
    (ENV ENV1 : gmap string Expr) :
  eval e ENV = (Return (IntConst v), ENV1) ->
  eval (Assign (Var n) e) ENV = (Return (IntConst v), <[n := IntConst v]> ENV1)
  /\ <[n := IntConst v]> ENV1 !! n = Some (IntConst v)
  /\ forall es, Forall (fun e' => assigns_to n e' = false) es ->
       eval (Var n) (run es (<[n := IntConst v]> ENV1))
       = (Return (IntConst v), run es (<[n := IntConst v]> ENV1)).
Proof.
  intros He. split; [| split].
  - now apply eval_Assign_Return.
  - apply lookup_insert_eq.
  - intros es Hes. apply eval_Var_Some.
    rewrite (run_preserves_lookup n es _ Hes). apply lookup_insert_eq.
Qed.

Lemma Assign_stores_value_witness :
  eval (IntConst 7) ∅ = (Return (IntConst 7), ∅)
  /\ eval (Assign (Var "x") (IntConst 7)) ∅
     = (Return (IntConst 7), <["x" := IntConst 7]> ∅)
  /\ eval (Var "x") (run [Assign (Var "y") (Var "x"); Var "z"]
                         (<["x" := IntConst 7]> ∅))
     = (Return (IntConst 7), run [Assign (Var "y") (Var "x"); Var "z"]
                                 (<["x" := IntConst 7]> ∅)).
Proof.
  assert (H : eval (IntConst 7) ∅ = (Return (IntConst 7), ∅)) by reflexivity.
  destruct (Assign_stores_value "x" (IntConst 7) 7 ∅ ∅ H) as (Ha & _ & Hs).
  split; [exact H |]. split; [exact Ha |].
  apply Hs. repeat constructor.
Defined.

(** C5. [Var(n).eval()] raises [UndefinedVariable] when [n] is not a key
    of [ENV], in particular from the initial empty dictionary and after any
    evaluations that never assign to [n]; the exception reaches the caller
    through every enclosing node ([BinOp], [UnOp], [Assign]), none of which
    catches it or writes to [ENV].  When [n] is a key, the stored value is
    returned. *)
Theorem Var_eval_lookup (n : string) (ENV : gmap string Expr) :
  (ENV !! n = None ->
     let undefined := UndefinedVariable (undefined_msg n) in
     eval (Var n) ENV = (Raise undefined, ENV)
     /\ (forall cls right_,
           eval (BinOp cls (Var n) right_) ENV = (Raise undefined, ENV))
     /\ (forall cls left_ ENV0 left_val,
           eval left_ ENV0 = (Return left_val, ENV) ->
           eval (BinOp cls left_ (Var n)) ENV0 = (Raise undefined, ENV))
     /\ (forall cls, eval (UnOp cls (Var n)) ENV = (Raise undefined, ENV))
     /\ (forall left_, eval (Assign left_ (Var n)) ENV = (Raise undefined, ENV)))
  /\ (forall v, ENV !! n = Some v -> eval (Var n) ENV = (Return v, ENV))
  /\ (forall es, Forall (fun e => assigns_to n e = false) es ->
        eval (Var n) (run es ∅)
        = (Raise (UndefinedVariable (undefined_msg n)), run es ∅)).
Proof.
  split; [| split].
  - intros Hn undefined. pose proof (eval_Var_None n ENV Hn) as Hv.
    split; [exact Hv |]. split; [| split; [| split]].
    + intros cls r. now apply eval_BinOp_Raise_left.
    + intros cls l ENV0 lv Hl. now apply (eval_BinOp_Raise_right _ _ _ _ lv ENV).
    + intros cls. now apply eval_UnOp_Raise.
    + intros l. now apply eval_Assign_Raise.
  - intros v. apply eval_Var_Some.
  - intros es Hes. apply eval_Var_None.
    rewrite (run_preserves_lookup n es ∅ Hes). apply lookup_empty.
Qed.

Lemma Var_eval_lookup_witness :
  (∅ : gmap string Expr) !! "x" = None
  /\ eval (Var "x") ∅
     = (Raise (UndefinedVariable "x has not been assigned a value"), ∅)
  /\ <["x" := IntConst 7]> (∅ : gmap string Expr) !! "x" = Some (IntConst 7)
  /\ eval (Var "x") (<["x" := IntConst 7]> ∅)
     = (Return (IntConst 7), <["x" := IntConst 7]> ∅).
Proof.
  assert (H0 : (∅ : gmap string Expr) !! "x" = None) by reflexivity.
  assert (H1 : <["x" := IntConst 7]> (∅ : gmap string Expr) !! "x"
               = Some (IntConst 7)) by reflexivity.
  split; [exact H0 |].
  split; [exact (proj1 (proj1 (Var_eval_lookup "x" ∅) H0)) |].
  split; [exact H1 |].
  exact (proj1 (proj2 (Var_eval_lookup "x" (<["x" := IntConst 7]> ∅)))
               (IntConst 7) H1).
Defined.

(** ** Failure inside an assignment *)

(** C9, as stated, fails: the right-hand side can itself contain an
    assignment that completes before the failure.  Evaluating
    [Assign(Var("x"), Plus(Assign(Var("y"), IntConst(1)), Var("z")))] from
    the empty dictionary raises [UndefinedVariable] for [z] and leaves [y]
    bound. *)
Lemma Assign_failure_changes_ENV :
  let right_ := Plus (Assign (Var "y") (IntConst 1)) (Var "z") in
  let undefined := UndefinedVariable "z has not been assigned a value" in
  eval right_ ∅ = (Raise undefined, {[ "y" := IntConst 1 ]})
  /\ eval (Assign (Var "x") right_) ∅ = (Raise undefined, {[ "y" := IntConst 1 ]})
  /\ ({[ "y" := IntConst 1 ]} : gmap string Expr) <> ∅.
Proof.
  cbv zeta. split; [| split].
  - vm_compute. reflexivity.
  - vm_compute. reflexivity.
  - intros H. apply (f_equal (fun m : gmap string Expr => m !! "y")) in H.
    vm_compute in H. discriminate.
Qed.

(** C9, amended. When the right-hand side of an assignment raises, the
    assignment raises the same exception and [ENV] is exactly what the
    right-hand side left: the [Assign] node itself writes nothing.  So
    [ENV] is unchanged when the right-hand side has no [Assign] node, and
    in general every name the right-hand side does not assign keeps its
    binding. *)
Theorem Assign_failure_writes_nothing (left_ right_ : Expr) (x : Exception)
    (ENV ENV1 : gmap string Expr) :
  eval right_ ENV = (Raise x, ENV1) ->
  eval (Assign left_ right_) ENV = (Raise x, ENV1)
  /\ (has_Assign right_ = false -> ENV1 = ENV)
  /\ (forall n, assigns_to n right_ = false -> ENV1 !! n = ENV !! n).
Proof.
  intros Hr. split; [| split].
  - now apply eval_Assign_Raise.
  - intros Hno. pose proof (eval_no_Assign_ENV right_ ENV Hno) as H.
    now rewrite Hr in H.
  - intros n Hn. pose proof (eval_preserves_lookup n right_ ENV Hn) as H.
    now rewrite Hr in H.
Qed.

Lemma Assign_failure_writes_nothing_witness :
  eval (Div (IntConst 1) (IntConst 0)) {[ "x" := IntConst 3 ]}
    = (Raise ZeroDivisionError, {[ "x" := IntConst 3 ]})
  /\ eval (Assign (Var "x") (Div (IntConst 1) (IntConst 0)))
          {[ "x" := IntConst 3 ]}
     = (Raise ZeroDivisionError, {[ "x" := IntConst 3 ]}).
Proof.
  assert (H : eval (Div (IntConst 1) (IntConst 0)) {[ "x" := IntConst 3 ]}
              = (Raise ZeroDivisionError, {[ "x" := IntConst 3 ]}))
    by reflexivity.
  split; [exact H |].
  exact (proj1 (Assign_failure_writes_nothing (Var "x") _ _ _ _ H)).
Defined.

(** ** Order of evaluation *)

(** C10. [BinOp.eval] evaluates the left operand, then the right operand
    in the [ENV] the left one produced.  If the left operand raises, the
    right one is not evaluated; otherwise the dictionary after the operation
    is the one the right operand left.  From the empty dictionary,
    [Plus(Assign(Var("x"), IntConst(1)), Var("x"))] evaluates to
    [IntConst(2)], and [Plus(Var("x"), Assign(Var("x"), IntConst(1)))]
    raises [UndefinedVariable]. *)
Theorem BinOp_left_then_right (cls : BinOpClass) (left_ right_ : Expr)
    (ENV : gmap string Expr) :
  (forall x ENV1,
     eval left_ ENV = (Raise x, ENV1) ->
     eval (BinOp cls left_ right_) ENV = (Raise x, ENV1))
  /\ (forall left_val ENV1 x ENV2,
        eval left_ ENV = (Return left_val, ENV1) ->
        eval right_ ENV1 = (Raise x, ENV2) ->
        eval (BinOp cls left_ right_) ENV = (Raise x, ENV2))
  /\ (forall left_val ENV1 right_val ENV2,
        eval left_ ENV = (Return left_val, ENV1) ->
        eval right_ ENV1 = (Return right_val, ENV2) ->
        eval (BinOp cls left_ right_) ENV
        = lift (BinOp_result cls left_val right_val) ENV2
        /\ snd (eval (BinOp cls left_ right_) ENV) = ENV2)
  /\ eval (Plus (Assign (Var "x") (IntConst 1)) (Var "x")) ∅
     = (Return (IntConst 2), {[ "x" := IntConst 1 ]})
  /\ eval (Plus (Var "x") (Assign (Var "x") (IntConst 1))) ∅
     = (Raise (UndefinedVariable "x has not been assigned a value"), ∅).
Proof.
  split; [| split; [| split; [| split]]].
  - intros x ENV1. apply eval_BinOp_Raise_left.
  - intros lv ENV1 x ENV2. apply eval_BinOp_Raise_right.
  - intros lv ENV1 rv ENV2 Hl Hr.
    assert (H : eval (BinOp cls left_ right_) ENV
                = lift (BinOp_result cls lv rv) ENV2).
    { cbn [eval].
      now rewrite (bind_Return _ _ _ _ _ Hl), (bind_Return _ _ _ _ _ Hr). }
    split; [exact H |]. rewrite H. apply lift_ENV.
  - vm_compute. reflexivity.
  - vm_compute. reflexivity.
Qed.

Lemma BinOp_left_then_right_witness :
  eval (Assign (Var "x") (IntConst 1)) ∅
    = (Return (IntConst 1), {[ "x" := IntConst 1 ]})
  /\ eval (Var "x") {[ "x" := IntConst 1 ]}
     = (Return (IntConst 1), {[ "x" := IntConst 1 ]})
  /\ snd (eval (Plus (Assign (Var "x") (IntConst 1)) (Var "x")) ∅)
     = {[ "x" := IntConst 1 ]}.
Proof.
  assert (Hl : eval (Assign (Var "x") (IntConst 1)) ∅
               = (Return (IntConst 1), {[ "x" := IntConst 1 ]}))
    by (vm_compute; reflexivity).
  assert (Hr : eval (Var "x") {[ "x" := IntConst 1 ]}
               = (Return (IntConst 1), {[ "x" := IntConst 1 ]}))
    by (vm_compute; reflexivity).
  split; [exact Hl |]. split; [exact Hr |].
  destruct (BinOp_left_then_right cPlus (Assign (Var "x") (IntConst 1))
              (Var "x") ∅) as (_ & _ & H & _).
  exact (proj2 (H _ _ _ _ Hl Hr)).
Defined.

(** ** Printing *)

Lemma append_assoc (s1 s2 s3 : string) :
  (s1 +:+ s2) +:+ s3 = s1 +:+ s2 +:+ s3.
Proof.
  induction s1 as [| c s1 IH]; [reflexivity |].
  change (String c ((s1 +:+ s2) +:+ s3) = String c (s1 +:+ s2 +:+ s3)).
  now f_equal.
Qed.

Lemma class_name_class_of e1 e2 :
  class_name e1 = class_name e2 <-> class_of e1 = class_of e2.
Proof.
  split.
  - destruct e1 as [| [] | [] | |], e2 as [| [] | [] | |];
      cbn; intros H; try reflexivity; discriminate H.
  - destruct e1 as [| [] | [] | |], e2 as [| [] | [] | |];
      cbn; intros H; try reflexivity; discriminate H.
Qed.

Lemma repr_determines_class_name e1 e2 :
  repr e1 = repr e2 -> class_name e1 = class_name e2.
Proof.
  destruct e1 as [| [] | [] | |], e2 as [| [] | [] | |];
    cbn [repr class_name BinOp_class_name UnOp_class_name String.append];
    intros H; try reflexivity; discriminate H.
Qed.

(** C7. [__str__] writes a binary operation as ["(left symbol right)"]
    with the symbols [+], [-], [*], [/], a unary operation as
    ["(symbol value)"] with the symbols [@] and [~], a constant as its bare
    decimal numeral, a variable as its bare name and an assignment as
    ["(left = right)"]; [Plus(IntConst(5), IntConst(4))] prints as
    ["(5 + 4)"] and [Neg(IntConst(5))] as ["(~ 5)"]. *)
Theorem str_algebraic_notation :
  (forall l r, str (Plus l r) = "(" +:+ str l +:+ " + " +:+ str r +:+ ")")
  /\ (forall l r, str (Minus l r) = "(" +:+ str l +:+ " - " +:+ str r +:+ ")")
  /\ (forall l r, str (Times l r) = "(" +:+ str l +:+ " * " +:+ str r +:+ ")")
  /\ (forall l r, str (Div l r) = "(" +:+ str l +:+ " / " +:+ str r +:+ ")")
  /\ (forall v, str (Abs v) = "(@ " +:+ str v +:+ ")")
  /\ (forall v, str (Neg v) = "(~ " +:+ str v +:+ ")")
  /\ (forall z, str (IntConst z) = pretty z)
  /\ str (IntConst 0) = "0"
  /\ str (IntConst 1203) = "1203"
  /\ str (IntConst (-45)) = "-45"
  /\ (forall name, str (Var name) = name)
  /\ (forall l r, str (Assign l r) = "(" +:+ str l +:+ " = " +:+ str r +:+ ")")
  /\ str (Plus (IntConst 5) (IntConst 4)) = "(5 + 4)"
  /\ str (Neg (IntConst 5)) = "(~ 5)".
Proof. repeat split. Qed.

(** C8. [__repr__] writes the class name of the node followed by the
    parenthesised, comma-separated debug forms of its children.  The class
    names of the nine concrete classes are pairwise different, and the debug
    form determines the class name of the node it was printed from; the debug
    form of [Plus(IntConst(5), IntConst(4))] is exactly that text. *)
Theorem repr_constructor_form :
  (forall e,
     repr e = class_name e +:+ "(" +:+ String.concat ", " (debug_args e) +:+ ")")
  /\ (forall e1 e2, class_name e1 = class_name e2 <-> class_of e1 = class_of e2)
  /\ (forall e1 e2, repr e1 = repr e2 -> class_name e1 = class_name e2)
  /\ repr (Plus (IntConst 5) (IntConst 4)) = "Plus(IntConst(5), IntConst(4))".
Proof.
  split; [| split; [| split]].
  - intros [v | cls l r | cls v | n | l r];
      cbn [repr str class_name debug_args String.concat];
      rewrite ?append_assoc; reflexivity.
  - exact class_name_class_of.
  - exact repr_determines_class_name.
  - reflexivity.
Qed.

(** * Further properties of the module *)

(** ** Equality of constants *)

(** X1. [IntConst.__eq__] compares by class and by value: a constant is
    equal exactly to the constants holding the same integer and to no object
    of another class; between constants the comparison is symmetric, and it
    is transitive. *)
Theorem IntConst_eq_by_value :
  (forall v other, IntConst_eq (IntConst v) other = true <-> other = IntConst v)
  /\ (forall v w,
        IntConst_eq (IntConst v) (IntConst w)
        = IntConst_eq (IntConst w) (IntConst v))
  /\ (forall u v other,
        IntConst_eq (IntConst u) (IntConst v) = true ->
        IntConst_eq (IntConst v) other = true ->
        IntConst_eq (IntConst u) other = true).
Proof.
  split; [| split].
  - intros v [w | | | |]; cbn; try (split; discriminate).
    rewrite bool_decide_eq_true. split; congruence.
  - intros v w. cbn. apply bool_decide_ext. split; congruence.
  - intros u v [w | | | |]; cbn; try (intros _; discriminate).
    rewrite !bool_decide_eq_true. congruence.
Qed.

(** ** What evaluation does to [ENV] *)

Lemma assigns_to_writes n e : assigns_to n e = true <-> n ∈ writes e.
Proof.
  induction e as [v | cls l IHl r IHr | cls v IHv | m | l _ r IHr];
    cbn [assigns_to writes].
  - rewrite elem_of_empty. split; [discriminate | contradiction].
  - now rewrite orb_true_iff, IHl, IHr, elem_of_union.
  - exact IHv.
  - rewrite elem_of_empty. split; [discriminate | contradiction].
  - rewrite orb_true_iff, IHr, elem_of_union.
    destruct l as [| | | m |];
      rewrite ?bool_decide_eq_true, ?elem_of_singleton, ?elem_of_empty;
      intuition (discriminate || congruence).
Qed.

Lemma eval_frame n e ENV : n ∉ writes e -> snd (eval e ENV) !! n = ENV !! n.
Proof.
  intros Hn. apply eval_preserves_lookup.
  destruct (assigns_to n e) eqn:E; [| reflexivity].
  now apply assigns_to_writes in E.
Qed.

(** Keys are only ever added. *)
Lemma eval_keeps_keys e ENV n :
  is_Some (ENV !! n) -> is_Some (snd (eval e ENV) !! n).
Proof.
  revert ENV.
  induction e as [v | cls l IHl r IHr | cls v IHv | m | l _ r IHr];
    intros ENV Hn; cbn [eval].
  - exact Hn.
  - unfold bind at 1. specialize (IHl ENV Hn).
    destruct (eval l ENV) as [[lv|x] ENV1]; cbn [snd] in *; [| exact IHl].
    unfold bind. specialize (IHr ENV1 IHl).
    destruct (eval r ENV1) as [[rv|x] ENV2]; cbn [snd] in *; [| exact IHr].
    now rewrite lift_ENV.
  - unfold bind. specialize (IHv ENV Hn).
    destruct (eval v ENV) as [[lv|x] ENV1]; cbn [snd] in *; [| exact IHv].
    now rewrite lift_ENV.
  - destruct (ENV !! m); exact Hn.
  - unfold bind at 1. specialize (IHr ENV Hn).
    destruct (eval r ENV) as [[rv|x] ENV1]; cbn [snd] in *; [| exact IHr].
    destruct l; cbn; try exact IHr.
    rewrite lookup_insert. case_decide; [now eexists | exact IHr].
Qed.

(** X2. Evaluation only touches the names its [Assign] nodes store under:
    every other name keeps its binding, no key is ever removed from [ENV],
    and the keys afterwards are the old ones and assignment targets of the
    tree.  In particular a tree without [Assign] leaves [ENV] exactly as it
    was, whether it returns or raises. *)
Theorem eval_footprint (e : Expr) (ENV : gmap string Expr) :
  (forall n, n ∉ writes e -> snd (eval e ENV) !! n = ENV !! n)
  /\ dom ENV ⊆ dom (snd (eval e ENV))
  /\ dom (snd (eval e ENV)) ⊆ dom ENV ∪ writes e
  /\ (has_Assign e = false -> snd (eval e ENV) = ENV).
Proof.
  split; [| split; [| split]].
  - intros n. apply eval_frame.
  - intros n. rewrite !elem_of_dom. apply eval_keeps_keys.
  - intros n Hn. destruct (decide (n ∈ writes e)) as [Hw | Hw]; [set_solver |].
    apply elem_of_union_l. rewrite elem_of_dom in *.
    now rewrite <- (eval_frame n e ENV Hw).
  - apply eval_no_Assign_ENV.
Qed.

Lemma eval_footprint_witness :
  has_Assign (Plus (Var "x") (Div (IntConst 1) (IntConst 0))) = false
  /\ snd (eval (Plus (Var "x") (Div (IntConst 1) (IntConst 0)))
               {[ "x" := IntConst 3 ]})
     = {[ "x" := IntConst 3 ]}.
Proof.
  assert (H : has_Assign (Plus (Var "x") (Div (IntConst 1) (IntConst 0)))
              = false) by reflexivity.
  split; [exact H |].
  exact (proj2 (proj2 (proj2 (eval_footprint _ {[ "x" := IntConst 3 ]}))) H).
Defined.

(** ** The outcomes of evaluation *)

Lemma ENV_holds_IntConst_empty : ENV_holds_IntConst ∅.
Proof. intros name v H. rewrite lookup_empty in H. discriminate. Qed.

Lemma run_holds_IntConst es ENV :
  ENV_holds_IntConst ENV -> ENV_holds_IntConst (run es ENV).
Proof.
  revert ENV. unfold run.
  induction es as [| e es IH]; intros ENV HE; cbn [fold_left]; [exact HE |].
  apply IH. destruct (eval e ENV) as [o ENV'] eqn:Ee.
  exact (proj1 (eval_returns_IntConst e ENV o ENV' HE Ee)).
Qed.

(** X3. The declared types are an invariant: if every object stored in
    [ENV] is an [IntConst], then after an evaluation, successful or not,
    this is still so, and a returned object is an [IntConst]. *)
Theorem eval_keeps_ENV_typed (e : Expr) (ENV ENV' : gmap string Expr)
    (o : Outcome Expr) :
  ENV_holds_IntConst ENV ->
  eval e ENV = (o, ENV') ->
  ENV_holds_IntConst ENV'
  /\ forall r, o = Return r -> exists v, r = IntConst v.
Proof.
  intros HE Ee.
  destruct (eval_returns_IntConst e ENV o ENV' HE Ee) as [HE' Hr].
  split; [exact HE' |].
  intros r Ho. apply isinstance_IntConst_true. now apply Hr.
Qed.

Lemma eval_keeps_ENV_typed_witness :
  ENV_holds_IntConst ∅
  /\ eval (Assign (Var "x") (Neg (IntConst 2))) ∅
     = (Return (IntConst (-2)), {[ "x" := IntConst (-2) ]})
  /\ ENV_holds_IntConst {[ "x" := IntConst (-2) ]}.
Proof.
  assert (H : eval (Assign (Var "x") (Neg (IntConst 2))) ∅
              = (Return (IntConst (-2)), {[ "x" := IntConst (-2) ]}))
    by (vm_compute; reflexivity).
  split; [exact ENV_holds_IntConst_empty |]. split; [exact H |].
  exact (proj1 (eval_keeps_ENV_typed _ _ _ _ ENV_holds_IntConst_empty H)).
Defined.

(** X4. Starting from the initial empty [ENV], whatever has been evaluated
    before, evaluating a tree built by the constructors either returns an
    [IntConst] or raises [UndefinedVariable] or [ZeroDivisionError]: no
    [AssertionError], [AttributeError] or [TypeError] escapes from
    [eval]. *)
Theorem eval_outcome_intended (es : list Expr) (e : Expr) :
  constructed e ->
  intended (fst (eval e (run es ∅))).
Proof.
  intros Hc.
  assert (HE : ENV_holds_IntConst (run es ∅))
    by exact (run_holds_IntConst es ∅ ENV_holds_IntConst_empty).
  destruct (eval e (run es ∅)) as [[r|x] ENV'] eqn:Ee; cbn.
  - apply isinstance_IntConst_true.
    exact (proj2 (eval_returns_IntConst _ _ _ _ HE Ee) r eq_refl).
  - exact (eval_raises_defined e _ x ENV'
             (constructed_targets_are_vars e Hc) HE Ee).
Qed.

Lemma eval_outcome_intended_witness :
  constructed (Div (Var "x") (IntConst 0))
  /\ intended (fst (eval (Div (Var "x") (IntConst 0))
                         (run [Assign (Var "x") (IntConst 1)] ∅))).
Proof.
  assert (H : constructed (Div (Var "x") (IntConst 0)))
    by (repeat constructor).
  split; [exact H |].
  exact (eval_outcome_intended [Assign (Var "x") (IntConst 1)] _ H).
Defined.

(** ** Facts about strings *)

Lemma append_String c s t : String c s +:+ t = String c (s +:+ t).
Proof. reflexivity. Qed.

Lemma length_append s t :
  String.length (s +:+ t) = (String.length s + String.length t)%nat.
Proof.
  induction s as [| c s IH]; [reflexivity |].
  rewrite append_String. cbn [String.length]. now rewrite IH.
Qed.

Lemma append_inv_length s1 s2 t1 t2 :
  String.length s1 = String.length s2 ->
  s1 +:+ t1 = s2 +:+ t2 -> s1 = s2 /\ t1 = t2.
Proof.
  revert s2. induction s1 as [| c s1 IH]; intros [| d s2] Hlen H;
    try discriminate Hlen.
  - now split.
  - rewrite !append_String in H. injection H as -> H.
    injection Hlen as Hlen. destruct (IH s2 Hlen H) as [-> ->]. now split.
Qed.

Lemma append_cancel_r s1 s2 t : s1 +:+ t = s2 +:+ t -> s1 = s2.
Proof.
  intros H. refine (proj1 (append_inv_length s1 s2 t t _ H)).
  apply (f_equal String.length) in H. rewrite !length_append in H. lia.
Qed.

Lemma undefined_msg_inj n m : undefined_msg n = undefined_msg m -> n = m.
Proof. apply append_cancel_r. Qed.

(** ** When evaluation succeeds *)





(** X6. A necessary condition for success: when evaluation returns, every
    name the tree reads is a key of the [ENV] it leaves; for a tree without
    [Assign] that is the [ENV] it started from, so such a tree cannot
    succeed with an unbound variable. *)
Theorem eval_Return_reads_bound (e : Expr) (ENV ENV' : gmap string Expr)
    (r : Expr) :
  eval e ENV = (Return r, ENV') ->
  reads e ⊆ dom ENV'
  /\ (has_Assign e = false -> reads e ⊆ dom ENV).
Proof.
  assert (Hmain : forall e ENV ENV' r,
             eval e ENV = (Return r, ENV') -> reads e ⊆ dom ENV').
  { clear. intros e.
    induction e as [v | cls l IHl r IHr | cls v IHv | m | l _ r IHr];
      intros ENV ENV' res; cbn [eval reads].
    - intros _ n Hn. now apply elem_of_empty in Hn.
    - unfold bind at 1.
      destruct (eval l ENV) as [[lv|x] ENV1] eqn:El; [| discriminate].
      unfold bind.
      destruct (eval r ENV1) as [[rv|x] ENV2] eqn:Er; [| discriminate].
      intros H. assert (ENV' = ENV2) as ->.
      { apply (f_equal snd) in H. rewrite lift_ENV in H. now symmetry. }
      intros n [Hn | Hn]%elem_of_union.
      + apply elem_of_dom. pose proof (eval_keeps_keys r ENV1 n) as Hk.
        rewrite Er in Hk. apply Hk, elem_of_dom. exact (IHl _ _ _ El n Hn).
      + exact (IHr _ _ _ Er n Hn).
    - unfold bind.
      destruct (eval v ENV) as [[lv|x] ENV1] eqn:Ev; [| discriminate].
      intros H. assert (ENV' = ENV1) as ->.
      { apply (f_equal snd) in H. rewrite lift_ENV in H. now symmetry. }
      exact (IHv _ _ _ Ev).
    - destruct (ENV !! m) as [v|] eqn:Em; [| discriminate].
      intros [= <- <-] n ->%elem_of_singleton.
      apply elem_of_dom. eexists. eassumption.
    - unfold bind at 1.
      destruct (eval r ENV) as [[rv|x] ENV1] eqn:Er; [| discriminate].
      destruct l as [| | | n |]; cbn; try discriminate.
      intros [= <- <-] k Hk. rewrite dom_insert. apply elem_of_union_r.
      exact (IHr _ _ _ Er k Hk). }
  intros He. split; [exact (Hmain _ _ _ _ He) |].
  intros Hno. pose proof (eval_no_Assign_ENV e ENV Hno) as Hsame.
  rewrite He in Hsame. cbn in Hsame. subst ENV'. exact (Hmain _ _ _ _ He).
Qed.

Lemma eval_Return_reads_bound_witness :
  eval (Plus (Var "x") (IntConst 1)) {[ "x" := IntConst 2 ]}
    = (Return (IntConst 3), {[ "x" := IntConst 2 ]})
  /\ reads (Plus (Var "x") (IntConst 1))
     ⊆ dom ({[ "x" := IntConst 2 ]} : gmap string Expr).
Proof.
  assert (H : eval (Plus (Var "x") (IntConst 1)) {[ "x" := IntConst 2 ]}
              = (Return (IntConst 3), {[ "x" := IntConst 2 ]}))
    by (vm_compute; reflexivity).
  split; [exact H |].
  exact (proj1 (eval_Return_reads_bound _ _ _ _ H)).
Defined.

(** ** What the outcome depends on *)

Lemma eval_agree (S : gset string) e :
  reads e ⊆ S ->
  forall ENV1 ENV2,
    (forall n, n ∈ S -> ENV1 !! n = ENV2 !! n) ->
    fst (eval e ENV1) = fst (eval e ENV2)
    /\ forall n, n ∈ S -> snd (eval e ENV1) !! n = snd (eval e ENV2) !! n.
Proof.
  induction e as [v | cls l IHl r IHr | cls v IHv | m | l _ r IHr];
    cbn [reads]; intros HS ENV1 ENV2 Hag; cbn [eval].
  - now split.
  - assert (HSl : reads l ⊆ S) by (etrans; [apply union_subseteq_l | exact HS]).
    assert (HSr : reads r ⊆ S) by (etrans; [apply union_subseteq_r | exact HS]).
    destruct (IHl HSl ENV1 ENV2 Hag) as [Ho Hag1].
    unfold bind at 1 3 5 7.
    destruct (eval l ENV1) as [[lv|x] E1], (eval l ENV2) as [[lv'|x'] E2];
      cbn [fst snd] in Ho, Hag1; try discriminate Ho.
    2:{ now split. }
    injection Ho as <-.
    destruct (IHr HSr E1 E2 Hag1) as [Ho Hag2].
    unfold bind.
    destruct (eval r E1) as [[rv|x] E1'], (eval r E2) as [[rv'|x'] E2'];
      cbn [fst snd] in Ho, Hag2; try discriminate Ho.
    2:{ now split. }
    injection Ho as <-. rewrite !lift_ENV. split; [| exact Hag2].
    now destruct (BinOp_result cls lv rv).
  - destruct (IHv HS ENV1 ENV2 Hag) as [Ho Hag1].
    unfold bind.
    destruct (eval v ENV1) as [[lv|x] E1], (eval v ENV2) as [[lv'|x'] E2];
      cbn [fst snd] in Ho, Hag1; try discriminate Ho.
    2:{ now split. }
    injection Ho as <-. rewrite !lift_ENV. split; [| exact Hag1].
    now destruct (UnOp_result cls lv).
  - rewrite <- (Hag m) by (apply HS, elem_of_singleton; reflexivity).
    destruct (ENV1 !! m); now split.
  - destruct (IHr HS ENV1 ENV2 Hag) as [Ho Hag1].
    unfold bind at 1 3 5 7.
    destruct (eval r ENV1) as [[rv|x] E1], (eval r ENV2) as [[rv'|x'] E2];
      cbn [fst snd] in Ho, Hag1; try discriminate Ho.
    2:{ now split. }
    injection Ho as <-.
    destruct l as [| | | k |]; cbn; try (now split).
    split; [reflexivity |]. intros n Hn. rewrite !lookup_insert.
    case_decide; [reflexivity | now apply Hag1].
Qed.



(** ** Where the exceptions come from *)

Lemma BinOp_result_raises_kind cls lv rv x :
  BinOp_result cls lv rv = inl x ->
  x = AttributeError \/ x = TypeError \/ (x = ZeroDivisionError /\ cls = cDiv).
Proof.
  unfold BinOp_result, and_then.
  destruct (getattr_value lv) as [y|l] eqn:El.
  { destruct lv; cbn in El; try discriminate; injection El as <-.
    all: intros [= <-]; now left. }
  destruct (getattr_value rv) as [y|r] eqn:Er.
  { destruct rv; cbn in Er; try discriminate; injection Er as <-.
    all: intros [= <-]; now left. }
  destruct l as [a|]; cbn; [| intros [= <-]; right; now left].
  destruct r as [b|]; cbn; [| intros [= <-]; right; now left].
  destruct cls; cbn; try discriminate.
  unfold floordiv. destruct (decide (b = 0)); [| discriminate].
  intros [= <-]. right. right. now split.
Qed.

Lemma UnOp_result_raises_kind cls lv x :
  UnOp_result cls lv = inl x -> x = AttributeError \/ x = TypeError.
Proof.
  unfold UnOp_result, and_then.
  destruct (getattr_value lv) as [y|l] eqn:El.
  { destruct lv; cbn in El; try discriminate; injection El as <-.
    all: intros [= <-]; now left. }
  destruct l as [a|]; cbn; [discriminate | intros [= <-]; now right].
Qed.

(** X8. The [UndefinedVariable] exception is accurate: when an evaluation
    raises it, its message is the one for a name that the tree reads and that
    is not a key of the [ENV] left behind, and the message fits no other
    name. *)
Theorem UndefinedVariable_names_unbound (e : Expr)
    (ENV ENV' : gmap string Expr) (msg : string) :
  eval e ENV = (Raise (UndefinedVariable msg), ENV') ->
  exists n,
    n ∈ reads e /\ ENV' !! n = None /\ msg = undefined_msg n
    /\ forall m, msg = undefined_msg m -> m = n.
Proof.
  revert ENV ENV'.
  induction e as [v | cls l IHl r IHr | cls v IHv | m | l _ r IHr];
    intros ENV ENV'; cbn [eval reads].
  - discriminate.
  - unfold bind at 1. destruct (eval l ENV) as [[lv|x] ENV1] eqn:El.
    2:{ intros [= -> ->]. destruct (IHl _ _ El) as (n & Hn & H).
        exists n. split; [now apply elem_of_union_l | exact H]. }
    unfold bind. destruct (eval r ENV1) as [[rv|x] ENV2] eqn:Er.
    2:{ intros [= -> ->]. destruct (IHr _ _ Er) as (n & Hn & H).
        exists n. split; [now apply elem_of_union_r | exact H]. }
    destruct (BinOp_result cls lv rv) as [x|res] eqn:Eres; cbn;
      [| discriminate].
    intros [= -> _].
    destruct (BinOp_result_raises_kind _ _ _ _ Eres) as [H | [H | [H _]]];
      discriminate H.
  - unfold bind. destruct (eval v ENV) as [[lv|x] ENV1] eqn:Ev.
    2:{ intros [= -> ->]. exact (IHv _ _ Ev). }
    destruct (UnOp_result cls lv) as [x|res] eqn:Eres; cbn; [| discriminate].
    intros [= -> _].
    destruct (UnOp_result_raises_kind _ _ _ Eres) as [H | H]; discriminate H.
  - destruct (ENV !! m) as [v|] eqn:Em; [discriminate |].
    intros [= <- <-]. exists m.
    split; [now apply elem_of_singleton |]. split; [exact Em |].
    split; [reflexivity |].
    intros k Hk. symmetry. now apply undefined_msg_inj.
  - unfold bind at 1. destruct (eval r ENV) as [[rv|x] ENV1] eqn:Er.
    2:{ intros [= -> ->]. exact (IHr _ _ Er). }
    destruct l; cbn; discriminate.
Qed.

Lemma UndefinedVariable_names_unbound_witness :
  eval (Plus (Assign (Var "y") (IntConst 1)) (Var "z")) ∅
    = (Raise (UndefinedVariable "z has not been assigned a value"),
       {[ "y" := IntConst 1 ]})
  /\ exists n,
       n ∈ reads (Plus (Assign (Var "y") (IntConst 1)) (Var "z"))
       /\ ({[ "y" := IntConst 1 ]} : gmap string Expr) !! n = None
       /\ "z has not been assigned a value" = undefined_msg n
       /\ forall m, "z has not been assigned a value" = undefined_msg m -> m = n.
Proof.
  assert (H : eval (Plus (Assign (Var "y") (IntConst 1)) (Var "z")) ∅
              = (Raise (UndefinedVariable "z has not been assigned a value"),
                 {[ "y" := IntConst 1 ]}))
    by (vm_compute; reflexivity).
  split; [exact H |].
  exact (UndefinedVariable_names_unbound _ _ _ _ H).
Defined.

(** X9. [ZeroDivisionError] comes from [Div] nodes only: a tree without
    [Div] never raises it, in any [ENV]. *)
Theorem no_Div_no_ZeroDivisionError (e : Expr) (ENV : gmap string Expr) :
  has_Div e = false ->
  fst (eval e ENV) <> Raise ZeroDivisionError.
Proof.
  revert ENV.
  induction e as [v | cls l IHl r IHr | cls v IHv | m | l _ r IHr];
    intros ENV Hdiv; cbn [has_Div] in Hdiv; cbn [eval].
  - discriminate.
  - apply orb_false_iff in Hdiv as [Hdiv Hdr].
    apply orb_false_iff in Hdiv as [Hcls Hdl].
    unfold bind at 1. specialize (IHl ENV Hdl).
    destruct (eval l ENV) as [[lv|x] ENV1]; [| exact IHl].
    unfold bind. specialize (IHr ENV1 Hdr).
    destruct (eval r ENV1) as [[rv|x] ENV2]; [| exact IHr].
    destruct (BinOp_result cls lv rv) as [x|res] eqn:Eres; cbn;
      [| discriminate].
    intros [= ->].
    destruct (BinOp_result_raises_kind _ _ _ _ Eres) as [H | [H | [_ ->]]];
      discriminate.
  - unfold bind. specialize (IHv ENV Hdiv).
    destruct (eval v ENV) as [[lv|x] ENV1]; [| exact IHv].
    destruct (UnOp_result cls lv) as [x|res] eqn:Eres; cbn; [| discriminate].
    intros [= ->].
    destruct (UnOp_result_raises_kind _ _ _ Eres) as [H | H]; discriminate H.
  - destruct (ENV !! m); discriminate.
  - unfold bind at 1. specialize (IHr ENV Hdiv).
    destruct (eval r ENV) as [[rv|x] ENV1]; [| exact IHr].
    destruct l; cbn; discriminate.
Qed.

Lemma no_Div_no_ZeroDivisionError_witness :
  has_Div (Times (Var "x") (IntConst 0)) = false
  /\ fst (eval (Times (Var "x") (IntConst 0)) ∅) <> Raise ZeroDivisionError.
Proof.
  assert (H : has_Div (Times (Var "x") (IntConst 0)) = false) by reflexivity.
  split; [exact H |].
  exact (no_Div_no_ZeroDivisionError _ ∅ H).
Defined.

(** ** Algebra of the operations *)

(** With a well-typed [ENV], an evaluation raises or returns a constant. *)
Lemma eval_typed_cases e ENV :
  ENV_holds_IntConst ENV ->
  (exists x ENV1, eval e ENV = (Raise x, ENV1))
  \/ (exists a ENV1, eval e ENV = (Return (IntConst a), ENV1)
                     /\ ENV_holds_IntConst ENV1).
Proof.
  intros HE. destruct (eval e ENV) as [[r|x] ENV1] eqn:Ee.
  - right. destruct (eval_returns_IntConst _ _ _ _ HE Ee) as [HE1 Hr].
    destruct (proj1 (isinstance_IntConst_true r) (Hr r eq_refl)) as [a ->].
    now exists a, ENV1.
  - left. now exists x, ENV1.
Qed.



(** X11. Whatever [Abs] returns is a constant holding a non-negative
    integer. *)
Theorem Abs_returns_nonnegative (e r : Expr) (ENV ENV' : gmap string Expr) :
  eval (Abs e) ENV = (Return r, ENV') ->
  exists v, r = IntConst v /\ 0 <= v.
Proof.
  cbn [eval]. unfold bind.
  destruct (eval e ENV) as [[lv|x] ENV1]; [| discriminate].
  unfold UnOp_result, and_then.
  destruct (getattr_value lv) as [|[a|]]; cbn; try discriminate.
  intros [= <- _]. exists (Z.abs a). split; [reflexivity | apply Z.abs_nonneg].
Qed.

Lemma Abs_returns_nonnegative_witness :
  eval (Abs (Minus (IntConst 2) (IntConst 9))) ∅ = (Return (IntConst 7), ∅)
  /\ exists v, IntConst 7 = IntConst v /\ 0 <= v.
Proof.
  assert (H : eval (Abs (Minus (IntConst 2) (IntConst 9))) ∅
              = (Return (IntConst 7), ∅)) by reflexivity.
  split; [exact H |].
  exact (Abs_returns_nonnegative _ _ _ _ H).
Defined.



(** X13. With a well-typed [ENV], the operands of [Plus] and of [Times] can
    be swapped when neither contains an assignment and at least one of them
    evaluates without raising.  (When both raise, the exception is that of
    whichever comes first.) *)
Theorem Plus_Times_commute (l r : Expr) (ENV : gmap string Expr) :
  ENV_holds_IntConst ENV ->
  has_Assign l = false ->
  has_Assign r = false ->
  (exists lv, fst (eval l ENV) = Return lv)
  \/ (exists rv, fst (eval r ENV) = Return rv) ->
  eval (Plus l r) ENV = eval (Plus r l) ENV
  /\ eval (Times l r) ENV = eval (Times r l) ENV.
Proof.
  intros HE Hl Hr Hret.
  pose proof (eval_no_Assign_ENV l ENV Hl) as Hsl.
  pose proof (eval_no_Assign_ENV r ENV Hr) as Hsr.
  destruct (eval_typed_cases l ENV HE) as [(x & E1 & El) | (a & E1 & El & _)];
    destruct (eval_typed_cases r ENV HE) as [(y & E2 & Er) | (b & E2 & Er & _)];
    rewrite El in Hsl; rewrite Er in Hsr; cbn [snd] in Hsl, Hsr; subst E1 E2.
  - exfalso. rewrite El, Er in Hret.
    destruct Hret as [[? H] | [? H]]; discriminate H.
  - split.
    + rewrite (eval_BinOp_Raise_left _ _ _ _ _ _ El).
      now rewrite (eval_BinOp_Raise_right _ _ _ _ _ _ _ _ Er El).
    + rewrite (eval_BinOp_Raise_left _ _ _ _ _ _ El).
      now rewrite (eval_BinOp_Raise_right _ _ _ _ _ _ _ _ Er El).
  - split.
    + rewrite (eval_BinOp_Raise_left _ _ _ _ _ _ Er).
      now rewrite (eval_BinOp_Raise_right _ _ _ _ _ _ _ _ El Er).
    + rewrite (eval_BinOp_Raise_left _ _ _ _ _ _ Er).
      now rewrite (eval_BinOp_Raise_right _ _ _ _ _ _ _ _ El Er).
  - rewrite (eval_BinOp_values cPlus _ _ _ _ _ _ _ El Er),
            (eval_BinOp_values cPlus _ _ _ _ _ _ _ Er El),
            (eval_BinOp_values cTimes _ _ _ _ _ _ _ El Er),
            (eval_BinOp_values cTimes _ _ _ _ _ _ _ Er El).
    cbn [BinOp_apply]. now rewrite (Z.add_comm a b), (Z.mul_comm a b).
Qed.

Lemma Plus_Times_commute_witness :
  ENV_holds_IntConst ∅
  /\ has_Assign (Var "x") = false
  /\ has_Assign (IntConst 2) = false
  /\ eval (Plus (Var "x") (IntConst 2)) ∅ = eval (Plus (IntConst 2) (Var "x")) ∅.
Proof.
  assert (H : (exists lv, fst (eval (Var "x") ∅) = Return lv)
              \/ (exists rv, fst (eval (IntConst 2) ∅) = Return rv))
    by (right; exists (IntConst 2); reflexivity).
  split; [exact ENV_holds_IntConst_empty |].
  split; [reflexivity |]. split; [reflexivity |].
  exact (proj1 (Plus_Times_commute (Var "x") (IntConst 2) ∅
                  ENV_holds_IntConst_empty eq_refl eq_refl H)).
Defined.

(** ** Assignments that read what they write *)

Lemma eval_increment x k v ENV :
  ENV !! x = Some (IntConst v) ->
  eval (Assign (Var x) (Plus (Var x) (IntConst k))) ENV
  = (Return (IntConst (v + k)), <[x := IntConst (v + k)]> ENV).
Proof.
  intros Hx. apply eval_Assign_Return.
  apply (eval_BinOp_values cPlus _ _ ENV v ENV k ENV).
  - now apply eval_Var_Some.
  - apply eval_IntConst.
Qed.

(** X14. The counter idiom: while [x] is bound to a constant,
    [Assign(Var(x), Plus(Var(x), IntConst(k)))] returns the old value plus
    [k] and rebinds [x] to it, so evaluating it [n] times adds [n * k]; while
    [x] is unbound it raises [UndefinedVariable] and binds nothing. *)
Theorem Assign_increment (x : string) (k v : Z) (n : nat)
    (ENV : gmap string Expr) :
  ENV !! x = Some (IntConst v) ->
  eval (Assign (Var x) (Plus (Var x) (IntConst k))) ENV
    = (Return (IntConst (v + k)), <[x := IntConst (v + k)]> ENV)
  /\ run (replicate n (Assign (Var x) (Plus (Var x) (IntConst k)))) ENV !! x
     = Some (IntConst (v + Z.of_nat n * k))
  /\ eval (Assign (Var x) (Plus (Var x) (IntConst k))) (delete x ENV)
     = (Raise (UndefinedVariable (undefined_msg x)), delete x ENV).
Proof.
  intros Hx. split; [now apply eval_increment |]. split.
  - revert v ENV Hx. unfold run.
    induction n as [| n IH]; intros v ENV Hx; cbn [replicate fold_left].
    + rewrite Hx. do 2 f_equal. lia.
    + rewrite (eval_increment x k v ENV Hx). cbn [snd].
      rewrite (IH (v + k)) by apply lookup_insert_eq. do 2 f_equal. lia.
  - apply eval_Assign_Raise, eval_BinOp_Raise_left, eval_Var_None,
      lookup_delete_eq.
Qed.

Lemma Assign_increment_witness :
  ({[ "i" := IntConst 10 ]} : gmap string Expr) !! "i" = Some (IntConst 10)
  /\ run (replicate 3 (Assign (Var "i") (Plus (Var "i") (IntConst 2))))
         {[ "i" := IntConst 10 ]} !! "i"
     = Some (IntConst (10 + Z.of_nat 3 * 2)).
Proof.
  assert (H : ({[ "i" := IntConst 10 ]} : gmap string Expr) !! "i"
              = Some (IntConst 10)) by reflexivity.
  split; [exact H |].
  exact (proj1 (proj2 (Assign_increment "i" 2 10 3 _ H))).
Defined.

(** X15. Chained assignment: an [Assign] is itself an expression whose
    value is the one it stored, so [Assign(Var(x), Assign(Var(y), e))] binds
    both names to the value of [e] and returns it. *)
Theorem Assign_chain (x y : string) (e r : Expr)
    (ENV ENV1 : gmap string Expr) :
  eval e ENV = (Return r, ENV1) ->
  eval (Assign (Var x) (Assign (Var y) e)) ENV
    = (Return r, <[x := r]> (<[y := r]> ENV1))
  /\ <[x := r]> (<[y := r]> ENV1) !! x = Some r
  /\ <[x := r]> (<[y := r]> ENV1) !! y = Some r.
Proof.
  intros He. split; [| split].
  - now apply eval_Assign_Return, eval_Assign_Return.
  - apply lookup_insert_eq.
  - rewrite lookup_insert. case_decide; [reflexivity | apply lookup_insert_eq].
Qed.

Lemma Assign_chain_witness :
  eval (Times (IntConst 3) (IntConst 4)) ∅ = (Return (IntConst 12), ∅)
  /\ eval (Assign (Var "a") (Assign (Var "b") (Times (IntConst 3) (IntConst 4)))) ∅
     = (Return (IntConst 12),
        <["a" := IntConst 12]> (<["b" := IntConst 12]> ∅)).
Proof.
  assert (H : eval (Times (IntConst 3) (IntConst 4)) ∅
              = (Return (IntConst 12), ∅)) by reflexivity.
  split; [exact H |].
  exact (proj1 (Assign_chain "a" "b" _ _ _ _ H)).
Defined.

(** ** Repeating an assignment *)

(** X19. Assignment is idempotent when the right-hand side has no
    assignment of its own and does not read the target: evaluating
    [Assign(Var(n), e)] a second time gives the same outcome and leaves the
    [ENV] the first evaluation produced. *)
Theorem Assign_idempotent (n : string) (e : Expr) (o : Outcome Expr)
    (ENV ENV1 : gmap string Expr) :
  has_Assign e = false ->
  n ∉ reads e ->
  eval (Assign (Var n) e) ENV = (o, ENV1) ->
  eval (Assign (Var n) e) ENV1 = (o, ENV1).
Proof.
  intros Hno Hn.
  pose proof (eval_no_Assign_ENV e ENV Hno) as Hsame.
  destruct (eval e ENV) as [[r|x] ENV'] eqn:Ee; cbn [snd] in Hsame; subst ENV'.
  - rewrite (eval_Assign_Return n e ENV r ENV Ee). intros [= <- <-].
    assert (Ee' : eval e (<[n := r]> ENV) = (Return r, <[n := r]> ENV)).
    { pose proof (eval_no_Assign_ENV e (<[n := r]> ENV) Hno) as Hs.
      assert (Ho : fst (eval e (<[n := r]> ENV)) = fst (eval e ENV)).
      { refine (proj1 (eval_agree (reads e) e (reflexivity _) _ _ _)).
        intros k Hk. apply lookup_insert_ne. intros ->. exact (Hn Hk). }
      rewrite Ee in Ho. cbn [fst] in Ho.
      destruct (eval e (<[n := r]> ENV)) as [o' E']; cbn in Hs, Ho.
      now subst. }
    rewrite (eval_Assign_Return n e _ r _ Ee'). now rewrite insert_insert_eq.
  - rewrite (eval_Assign_Raise (Var n) e ENV x ENV Ee). intros [= <- <-].
    now apply eval_Assign_Raise.
Qed.

Lemma Assign_idempotent_witness :
  has_Assign (Plus (Var "y") (IntConst 1)) = false
  /\ ("x" ∉ reads (Plus (Var "y") (IntConst 1)))
  /\ eval (Assign (Var "x") (Plus (Var "y") (IntConst 1))) {[ "y" := IntConst 2 ]}
     = (Return (IntConst 3), <["x" := IntConst 3]> {[ "y" := IntConst 2 ]})
  /\ eval (Assign (Var "x") (Plus (Var "y") (IntConst 1)))
          (<["x" := IntConst 3]> {[ "y" := IntConst 2 ]})
     = (Return (IntConst 3), <["x" := IntConst 3]> {[ "y" := IntConst 2 ]}).
Proof.
  assert (H1 : has_Assign (Plus (Var "y") (IntConst 1)) = false) by reflexivity.
  assert (H2 : "x" ∉ reads (Plus (Var "y") (IntConst 1))).
  { cbn [reads]. intros [H | H]%elem_of_union.
    - apply elem_of_singleton in H. discriminate H.
    - now apply elem_of_empty in H. }
  assert (H3 : eval (Assign (Var "x") (Plus (Var "y") (IntConst 1)))
                    {[ "y" := IntConst 2 ]}
               = (Return (IntConst 3),
                  <["x" := IntConst 3]> {[ "y" := IntConst 2 ]}))
    by (vm_compute; reflexivity).
  split; [exact H1 |]. split; [exact H2 |]. split; [exact H3 |].
  exact (Assign_idempotent "x" _ _ _ _ H1 H2 H3).
Defined.

(** ** The trees the constructors build *)

(** X20. The constructors build exactly the trees in which every
    assignment target is a [Var]: [Assign.__init__] rejects nothing else. *)
Theorem constructed_iff_targets_are_vars (e : Expr) :
  constructed e <-> targets_are_vars e = true.
Proof.
  split; [apply constructed_targets_are_vars |].
  induction e as [v | cls l IHl r IHr | cls v IHv | m | l IHl r IHr];
    cbn [targets_are_vars]; intros H.
  - constructor.
  - apply andb_true_iff in H as [Hl Hr]. constructor; auto.
  - constructor; auto.
  - constructor.
  - apply andb_true_iff in H as [H Hr]. apply andb_true_iff in H as [Hvar Hl].
    apply (constructed_Assign l r); auto.
    unfold Assign_init. now rewrite Hvar.
Qed.

(** ** Rewriting operations *)

Lemma eval_pair_typed_cases l r ENV :
  ENV_holds_IntConst ENV ->
  (exists x E1, eval l ENV = (Raise x, E1))
  \/ (exists a E1 x E2,
        eval l ENV = (Return (IntConst a), E1) /\ eval r E1 = (Raise x, E2))
  \/ (exists a E1 b E2,
        eval l ENV = (Return (IntConst a), E1)
        /\ eval r E1 = (Return (IntConst b), E2)).
Proof.
  intros HE.
  destruct (eval_typed_cases l ENV HE) as [(x & E1 & El) | (a & E1 & El & HE1)].
  - left. now exists x, E1.
  - right.
    destruct (eval_typed_cases r E1 HE1) as [(x & E2 & Er) | (b & E2 & Er & _)].
    + left. now exists a, E1, x, E2.
    + right. now exists a, E1, b, E2.
Qed.

(** X18. With a well-typed [ENV], for all operands (assignments and
    failures included): subtracting is adding the negation; negating both
    operands changes neither a product nor a floor quotient; the absolute
    value of a product is the product of the absolute values.  Negating only
    the dividend is not negating the quotient, as [-7 // 2] shows. *)
Theorem BinOp_rewrites (l r : Expr) (ENV : gmap string Expr) :
  ENV_holds_IntConst ENV ->
  eval (Minus l r) ENV = eval (Plus l (Neg r)) ENV
  /\ eval (Times (Neg l) (Neg r)) ENV = eval (Times l r) ENV
  /\ eval (Div (Neg l) (Neg r)) ENV = eval (Div l r) ENV
  /\ eval (Abs (Times l r)) ENV = eval (Times (Abs l) (Abs r)) ENV
  /\ eval (Div (Neg (IntConst 7)) (IntConst 2)) ENV
     <> eval (Neg (Div (IntConst 7) (IntConst 2))) ENV.
Proof.
  intros HE.
  destruct (eval_pair_typed_cases l r ENV HE)
    as [(x & E1 & El) | [(a & E1 & x & E2 & El & Er) | (a & E1 & b & E2 & El & Er)]].
  - pose proof (fun cls => eval_UnOp_Raise cls l ENV x E1 El) as HU.
    pose proof (fun cls r' => eval_BinOp_Raise_left cls l r' ENV x E1 El) as HB.
    pose proof (fun cls cls' r' =>
                  eval_BinOp_Raise_left cls (UnOp cls' l) r' ENV x E1 (HU cls'))
      as HB'.
    rewrite !HB, !HB'. rewrite (eval_UnOp_Raise cAbs _ ENV x E1 (HB cTimes r)).
    repeat split. discriminate.
  - pose proof (fun cls => eval_UnOp_value cls l ENV a E1 El) as HUl.
    pose proof (fun cls => eval_UnOp_Raise cls r E1 x E2 Er) as HUr.
    pose proof (fun cls => eval_BinOp_Raise_right cls l r ENV _ E1 x E2 El Er)
      as HB.
    rewrite !HB.
    rewrite (eval_BinOp_Raise_right cPlus l (Neg r) ENV _ E1 x E2 El (HUr cNeg)).
    rewrite (eval_BinOp_Raise_right cTimes _ _ ENV _ E1 x E2 (HUl cNeg) (HUr cNeg)).
    rewrite (eval_BinOp_Raise_right cDiv _ _ ENV _ E1 x E2 (HUl cNeg) (HUr cNeg)).
    rewrite (eval_BinOp_Raise_right cTimes _ _ ENV _ E1 x E2 (HUl cAbs) (HUr cAbs)).
    rewrite (eval_UnOp_Raise cAbs _ ENV x E2 (HB cTimes)).
    repeat split. discriminate.
  - pose proof (fun cls => eval_UnOp_value cls l ENV a E1 El) as HUl.
    pose proof (fun cls => eval_UnOp_value cls r E1 b E2 Er) as HUr.
    pose proof (eval_BinOp_values cTimes l r ENV a E1 b E2 El Er) as HT.
    cbn [BinOp_apply] in HT.
    rewrite (eval_BinOp_values cMinus l r ENV a E1 b E2 El Er).
    rewrite (eval_BinOp_values cPlus _ _ ENV _ E1 _ E2 El (HUr cNeg)).
    rewrite (eval_BinOp_values cTimes _ _ ENV _ E1 _ E2 (HUl cNeg) (HUr cNeg)).
    rewrite (eval_BinOp_values cDiv _ _ ENV _ E1 _ E2 (HUl cNeg) (HUr cNeg)).
    rewrite (eval_BinOp_values cDiv l r ENV a E1 b E2 El Er).
    rewrite (eval_BinOp_values cTimes _ _ ENV _ E1 _ E2 (HUl cAbs) (HUr cAbs)).
    rewrite (eval_UnOp_value cAbs _ ENV _ E2 HT), HT.
    cbn [BinOp_apply UnOp_apply].
    rewrite Z.mul_opp_opp, Z.abs_mul, Z.add_opp_r.
    split; [reflexivity |]. split; [reflexivity |]. split.
    + unfold floordiv.
      destruct (decide (b = 0)) as [-> | Hb]; [reflexivity |].
      destruct (decide (- b = 0)) as [Hb' | _]; [lia |].
      now rewrite Z.div_opp_opp.
    + split; [reflexivity | discriminate].
Qed.

Lemma BinOp_rewrites_witness :
  ENV_holds_IntConst ∅
  /\ eval (Div (Neg (IntConst 7)) (Neg (IntConst (-2)))) ∅
     = eval (Div (IntConst 7) (IntConst (-2))) ∅.
Proof.
  split; [exact ENV_holds_IntConst_empty |].
  exact (proj1 (proj2 (proj2
           (BinOp_rewrites (IntConst 7) (IntConst (-2)) ∅
              ENV_holds_IntConst_empty)))).
Defined.

(** ** The printed forms determine the tree *)

Lemma pretty_N_go_forall P x s :
  (forall d, P (pretty_N_char d) = true) ->
  string_forall P s = true -> string_forall P (pretty_N_go x s) = true.
Proof.
  intros Hd. revert s. induction (N.lt_wf_0 x) as [x _ IH]; intros s Hs.
  destruct (decide (x = 0)%N) as [-> | Hx].
  - now rewrite pretty_N_go_0.
  - rewrite pretty_N_go_step by lia. apply IH.
    + apply N.div_lt; lia.
    + cbn [string_forall]. now rewrite Hd, Hs.
Qed.

Lemma pretty_Z_forall P (z : Z) :
  (forall d, P (pretty_N_char d) = true) -> P "-"%char = true ->
  string_forall P (pretty z) = true.
Proof.
  intros Hd Hm.
  assert (HN : forall p, string_forall P (pretty (N.pos p)) = true).
  { intros p. unfold pretty, pretty_N.
    destruct (decide (N.pos p = 0)%N); [discriminate |].
    now apply pretty_N_go_forall. }
  destruct z as [| p | p]; unfold pretty, pretty_Z.
  - cbn [string_forall]. rewrite andb_true_r. exact (Hd 0%N).
  - apply HN.
  - change ("-" +:+ pretty p) with (String "-" (pretty (N.pos p))).
    cbn [string_forall]. now rewrite Hm, HN.
Qed.

Lemma append_split_at c s1 s2 t1 t2 :
  string_forall (fun d => negb (Ascii.eqb d c)) s1 = true ->
  string_forall (fun d => negb (Ascii.eqb d c)) s2 = true ->
  s1 +:+ String c t1 = s2 +:+ String c t2 -> s1 = s2 /\ t1 = t2.
Proof.
  revert s2. induction s1 as [| a s1 IH]; intros [| b s2] H1 H2 H;
    rewrite ?append_String in H; cbn [string_forall] in H1, H2.
  - injection H as ->. now split.
  - injection H as -> _. rewrite Ascii.eqb_refl in H2. discriminate.
  - injection H as -> _. rewrite Ascii.eqb_refl in H1. discriminate.
  - injection H as -> H.
    apply andb_true_iff in H1 as [_ H1]. apply andb_true_iff in H2 as [_ H2].
    destruct (IH s2 H1 H2 H) as [-> ->]. now split.
Qed.

Lemma pretty_Z_no_rparen (z : Z) : no_rparen (pretty z) = true.
Proof.
  apply pretty_Z_forall; [| reflexivity].
  intros d. unfold pretty_N_char. now repeat case_match.
Qed.

Lemma literal_prefix p X Y : p +:+ X = p +:+ Y -> X = Y.
Proof. intros H. exact (proj2 (append_inv_length p p X Y eq_refl H)). Qed.

(** A debug form followed by anything determines both the tree and what
    follows. *)
Lemma repr_prefix_free e1 :
  forall e2 t1 t2,
    names_forall no_rparen e1 = true ->
    names_forall no_rparen e2 = true ->
    repr e1 +:+ t1 = repr e2 +:+ t2 -> e1 = e2 /\ t1 = t2.
Proof.
  induction e1 as [v | cls l IHl r IHr | cls v IHv | m | l IHl r IHr];
    intros [w | cls' l' r' | cls' v' | m' | l' r'] t1 t2 H1 H2 Heq;
    cbn [repr str names_forall] in Heq, H1, H2;
    rewrite ?append_assoc in Heq;
    try (destruct cls); try (destruct cls'); try discriminate Heq;
    repeat apply literal_prefix in Heq;
    repeat match goal with
           | H : _ && _ = true |- _ => apply andb_true_iff in H as [? ?]
           end;
    try (apply IHl in Heq as [-> Heq]; [| assumption ..];
         apply literal_prefix in Heq;
         apply IHr in Heq as [-> Heq]; [| assumption ..];
         apply literal_prefix in Heq; now subst);
    try (apply IHv in Heq as [-> Heq]; [| assumption ..];
         apply literal_prefix in Heq; now subst).
  - apply append_split_at in Heq as [Hv ->]; try apply pretty_Z_no_rparen.
    apply (inj pretty) in Hv as ->. now split.
  - apply append_split_at in Heq as [-> ->]; try assumption. now split.
Qed.

(** X16. The debug form is unambiguous: two trees whose variable names
    contain no closing parenthesis and whose [__repr__] strings are equal are
    the same tree (same classes, same constants, same names).  The condition
    is needed: [names_with_rparen_collide] below. *)
Theorem repr_injective (e1 e2 : Expr) :
  names_forall no_rparen e1 = true ->
  names_forall no_rparen e2 = true ->
  repr e1 = repr e2 -> e1 = e2.
Proof.
  intros H1 H2 Heq.
  refine (proj1 (repr_prefix_free e1 e2 "" "" H1 H2 _)).
  now rewrite Heq.
Qed.

Lemma repr_injective_witness :
  names_forall no_rparen (Assign (Var "x") (Neg (IntConst 5))) = true
  /\ repr (Assign (Var "x") (Neg (IntConst 5)))
     = repr (Assign (Var "x") (Neg (IntConst 5)))
  /\ Assign (Var "x") (Neg (IntConst 5)) = Assign (Var "x") (Neg (IntConst 5)).
Proof.
  assert (H : names_forall no_rparen (Assign (Var "x") (Neg (IntConst 5)))
              = true) by reflexivity.
  split; [exact H |]. split; [reflexivity |].
  exact (repr_injective _ _ H H eq_refl).
Defined.

(** Two different trees with the same debug form: the names are not
    quoted, so a name can imitate the text around it. *)
Lemma names_with_rparen_collide :
  repr (Plus (Var "a), Var(b") (Var "c"))
  = repr (Plus (Var "a") (Var "b), Var(c"))
  /\ Plus (Var "a), Var(b") (Var "c") <> Plus (Var "a") (Var "b), Var(c").
Proof. split; [reflexivity | discriminate]. Qed.

Ltac by_cases_on_char c :=
  destruct c as [[] [] [] [] [] [] [] []]; try discriminate; try reflexivity.

Lemma is_letter_atom c : is_letter c = true -> atom_char c = true.
Proof. by_cases_on_char c. Qed.
Lemma ident_char_atom c : is_letter c || is_digit c = true -> atom_char c = true.
Proof. by_cases_on_char c. Qed.
Lemma numeral_char_atom c : numeral_char c = true -> atom_char c = true.
Proof. by_cases_on_char c. Qed.
Lemma numeral_not_letter c : numeral_char c = true -> is_letter c = false.
Proof. by_cases_on_char c. Qed.

Lemma string_forall_impl (P Q : ascii -> bool) s :
  (forall c, P c = true -> Q c = true) ->
  string_forall P s = true -> string_forall Q s = true.
Proof.
  intros HPQ. induction s as [| c s IH]; cbn [string_forall]; [reflexivity |].
  intros [Hc Hs]%andb_true_iff. now rewrite (HPQ c Hc), IH.
Qed.

Lemma pretty_Z_numeral (z : Z) : string_forall numeral_char (pretty z) = true.
Proof.
  apply pretty_Z_forall; [| reflexivity].
  intros d. unfold pretty_N_char. now repeat case_match.
Qed.

Lemma identifier_atom s : identifier s = true -> string_forall atom_char s = true.
Proof.
  destruct s as [| c s]; [discriminate |]. cbn [identifier string_forall].
  intros [Hc Hs]%andb_true_iff. rewrite (is_letter_atom c Hc).
  exact (string_forall_impl _ _ s ident_char_atom Hs).
Qed.

Lemma atom_split a1 a2 t1 t2 :
  string_forall atom_char a1 = true -> string_forall atom_char a2 = true ->
  delimited t1 = true -> delimited t2 = true ->
  a1 +:+ t1 = a2 +:+ t2 -> a1 = a2 /\ t1 = t2.
Proof.
  revert a2. induction a1 as [| c a1 IH]; intros [| d a2] H1 H2 Ht1 Ht2 H;
    rewrite ?append_String in H; cbn [string_forall] in H1, H2.
  - now split.
  - change ("" +:+ t1) with t1 in H. subst t1. cbn [delimited] in Ht1.
    apply andb_true_iff in H2 as [H2 _]. unfold atom_char in H2.
    rewrite Ht1 in H2. discriminate.
  - change ("" +:+ t2) with t2 in H. subst t2. cbn [delimited] in Ht2.
    apply andb_true_iff in H1 as [H1 _]. unfold atom_char in H1.
    rewrite Ht2 in H1. discriminate.
  - injection H as -> H.
    apply andb_true_iff in H1 as [_ H1]. apply andb_true_iff in H2 as [_ H2].
    destruct (IH a2 H1 H2 Ht1 Ht2 H) as [-> ->]. now split.
Qed.

(** The first character of a printed expression followed by a delimited
    rest. *)
Lemma str_head e t c rest :
  names_forall identifier e = true -> delimited t = true ->
  str e +:+ t = String c rest -> head_char c = true.
Proof.
  destruct e as [v | cls l r | cls v | m | l r]; cbn [str names_forall];
    intros Hn Ht H; rewrite ?append_String in H.
  - pose proof (pretty_Z_numeral v) as Hv.
    destruct (pretty v) as [| d s].
    + change ("" +:+ t) with t in H. subst t. cbn [delimited] in Ht.
      unfold head_char. rewrite Ht. now rewrite !orb_true_r.
    + rewrite append_String in H. injection H as -> _.
      cbn [string_forall] in Hv. apply andb_true_iff in Hv as [Hv _].
      unfold head_char. now rewrite Hv.
  - injection H as <- _. reflexivity.
  - injection H as <- _. reflexivity.
  - destruct m as [| d s]; [discriminate |]. rewrite append_String in H.
    injection H as -> _. cbn [identifier] in Hn.
    apply andb_true_iff in Hn as [Hn _]. unfold head_char. rewrite Hn.
    now rewrite !orb_true_r.
  - injection H as <- _. reflexivity.
Qed.


Lemma head_char_not_UnOp_symbol c cls rest rest' :
  head_char c = true -> String c rest <> UnOp_symbol cls +:+ rest'.
Proof.
  intros Hc H. destruct cls; cbn [UnOp_symbol] in H;
    rewrite append_String in H;
    match type of H with String _ _ = String ?d _ => assert (c = d) as -> by congruence end;
    discriminate Hc.
Qed.

Lemma str_not_UnOp_symbol e t cls rest :
  names_forall identifier e = true -> delimited t = true ->
  str e +:+ t <> UnOp_symbol cls +:+ rest.
Proof.
  intros Hn Ht H. destruct (str e +:+ t) as [| c s] eqn:E.
  - destruct cls; discriminate H.
  - exact (head_char_not_UnOp_symbol c cls s rest (str_head e t c s Hn Ht E) H).
Qed.

Lemma numeral_not_compound s t rest :
  string_forall numeral_char s = true -> delimited t = true ->
  s +:+ t <> "(" +:+ rest.
Proof.
  intros Hs Ht H. destruct s as [| c s].
  - change ("" +:+ t) with t in H. subst t. discriminate Ht.
  - rewrite !append_String in H. injection H as -> _. discriminate Hs.
Qed.

Lemma identifier_not_compound s t rest :
  identifier s = true -> s +:+ t <> "(" +:+ rest.
Proof.
  intros Hs H. destruct s as [| c s]; [discriminate Hs |].
  rewrite !append_String in H. injection H as -> _. discriminate Hs.
Qed.

Lemma numeral_not_identifier s :
  string_forall numeral_char s = true -> identifier s = true -> False.
Proof.
  destruct s as [| c s]; [discriminate |]. cbn [string_forall identifier].
  intros [Hc _]%andb_true_iff [Hl _]%andb_true_iff.
  rewrite (numeral_not_letter c Hc) in Hl. discriminate.
Qed.

Lemma str_prefix_free e1 :
  forall e2 t1 t2,
    names_forall identifier e1 = true ->
    names_forall identifier e2 = true ->
    delimited t1 = true -> delimited t2 = true ->
    str e1 +:+ t1 = str e2 +:+ t2 -> e1 = e2 /\ t1 = t2.
Proof.
  induction e1 as [v | cls l IHl r IHr | cls v IHv | m | l IHl r IHr];
    intros [w | cls' l' r' | cls' v' | m' | l' r'] t1 t2 H1 H2 Ht1 Ht2 Heq;
    cbn [str names_forall] in Heq, H1, H2;
    rewrite ?append_assoc in Heq;
    repeat match goal with
           | H : _ && _ = true |- _ => apply andb_true_iff in H as [? ?]
           end;
    try solve
      [ exfalso; first
          [ exact (numeral_not_compound _ _ _ (pretty_Z_numeral _) Ht1 Heq)
          | exact (numeral_not_compound _ _ _ (pretty_Z_numeral _) Ht2 (eq_sym Heq))
          | eapply identifier_not_compound; [| exact Heq]; assumption
          | eapply identifier_not_compound; [| exact (eq_sym Heq)]; assumption ] ].
  - apply atom_split in Heq as [Hv ->]; try assumption;
      try exact (string_forall_impl _ _ _ numeral_char_atom (pretty_Z_numeral _)).
    apply (inj pretty) in Hv as ->. now split.
  - exfalso.
    apply atom_split in Heq as [Hv _]; try assumption;
      try exact (string_forall_impl _ _ _ numeral_char_atom (pretty_Z_numeral _));
      try now apply identifier_atom.
    apply (numeral_not_identifier m'); [| assumption].
    rewrite <- Hv. apply pretty_Z_numeral.
  - apply literal_prefix in Heq.
    apply IHl in Heq as [-> Heq]; try assumption; try reflexivity.
    destruct cls, cls'; try discriminate Heq;
      repeat apply literal_prefix in Heq;
      apply IHr in Heq as [-> Heq]; try assumption; try reflexivity;
      apply literal_prefix in Heq; now subst.
  - exfalso. apply literal_prefix in Heq.
    now apply (str_not_UnOp_symbol l _ cls' _) in Heq.
  - exfalso. apply literal_prefix in Heq.
    apply IHl in Heq as [-> Heq]; try assumption; try reflexivity.
    destruct cls; discriminate Heq.
  - exfalso. apply literal_prefix in Heq. symmetry in Heq.
    now apply (str_not_UnOp_symbol l' _ cls _) in Heq.
  - apply literal_prefix in Heq.
    destruct cls, cls'; try discriminate Heq;
      repeat apply literal_prefix in Heq;
      apply IHv in Heq as [-> Heq]; try assumption; try reflexivity;
      apply literal_prefix in Heq; now subst.
  - exfalso. apply literal_prefix in Heq. symmetry in Heq.
    now apply (str_not_UnOp_symbol l' _ cls _) in Heq.
  - exfalso.
    apply atom_split in Heq as [Hv _]; try assumption;
      try exact (string_forall_impl _ _ _ numeral_char_atom (pretty_Z_numeral _));
      try now apply identifier_atom.
    apply (numeral_not_identifier m); [| assumption].
    rewrite Hv. apply pretty_Z_numeral.
  - apply atom_split in Heq as [-> ->]; try assumption;
      try now apply identifier_atom.
    now split.
  - exfalso. apply literal_prefix in Heq.
    apply IHl in Heq as [-> Heq]; try assumption; try reflexivity.
    destruct cls'; discriminate Heq.
  - exfalso. apply literal_prefix in Heq.
    now apply (str_not_UnOp_symbol l _ cls' _) in Heq.
  - apply literal_prefix in Heq.
    apply IHl in Heq as [-> Heq]; try assumption; try reflexivity.
    apply literal_prefix in Heq.
    apply IHr in Heq as [-> Heq]; try assumption; try reflexivity.
    apply literal_prefix in Heq. now subst.
Qed.


(** X17. Algebraic notation is unambiguous on trees whose variable names
    are identifiers: two such trees with equal [__str__] strings are the same
    tree.  The condition is needed: [numeral_names_collide] below. *)
Theorem str_injective (e1 e2 : Expr) :
  names_forall identifier e1 = true ->
  names_forall identifier e2 = true ->
  str e1 = str e2 -> e1 = e2.
Proof.
  intros H1 H2 Heq.
  refine (proj1 (str_prefix_free e1 e2 "" "" H1 H2 eq_refl eq_refl _)).
  now rewrite Heq.
Qed.

Lemma str_injective_witness :
  names_forall identifier (Minus (Var "x_1") (Abs (IntConst (-3)))) = true
  /\ str (Minus (Var "x_1") (Abs (IntConst (-3))))
     = str (Minus (Var "x_1") (Abs (IntConst (-3))))
  /\ Minus (Var "x_1") (Abs (IntConst (-3)))
     = Minus (Var "x_1") (Abs (IntConst (-3))).
Proof.
  assert (H : names_forall identifier (Minus (Var "x_1") (Abs (IntConst (-3))))
              = true) by reflexivity.
  split; [exact H |]. split; [reflexivity |].
  exact (str_injective _ _ H H eq_refl).
Defined.

(** A variable named like a numeral, or like a whole expression, prints
    like the constant or the expression. *)
Lemma numeral_names_collide :
  str (Var "5") = str (IntConst 5)
  /\ str (Var "(a + b)") = str (Plus (Var "a") (Var "b")).
Proof. split; reflexivity. Qed.

(** ** Sample runs *)

Example str_Plus_5_4 : str (Plus (IntConst 5) (IntConst 4)) = "(5 + 4)".
Proof. reflexivity. Qed.

Example eval_Div_m7_2 :
  eval (Div (IntConst (-7)) (IntConst 2)) ∅ = (Return (IntConst (-4)), ∅).
Proof. reflexivity. Qed.

Example eval_Plus_Assign_then_Var :
  eval (Plus (Assign (Var "x") (IntConst 1)) (Var "x")) ∅
  = (Return (IntConst 2), {[ "x" := IntConst 1 ]}).
Proof. vm_compute. reflexivity. Qed.
